(** * The clp command line parser: a shallow embedding and its properties

    The development follows the layout of the library:
    - [parse_traits.hh]: conversion of a value text to a typed value and back;
    - [clp.hh]: the decorator layers of an option, compounds, commands,
      command selectors and selectors with shared options;
    - [clp.inl]: the parse functions and the help text.

    An argument list [(argc, argv)] is a [list string]; [std::optional] is
    [option]; [std::string_view] and [std::string] are both [string]. *)

From Stdlib Require Import List String Ascii Bool Arith ZArith Lia.
From Stdlib Require Import Permutation.
From Stdlib Require Import Numbers.DecimalString Numbers.DecimalPos.
Import ListNotations.

Open Scope string_scope.

(* ================================================================== *)
(** ** [std::string_view] operations used by the library *)

(** [text.starts_with(pattern)] *)
Definition starts_with (text pattern : string) : bool :=
  String.prefix pattern text.

(** [text.substr(pos)], for [pos <= text.size()] *)
Definition substr (pos : nat) (text : string) : string :=
  String.substring pos (String.length text - pos) text.

(** [text.empty()] *)
Definition empty (text : string) : bool :=
  match text with
  | EmptyString => true
  | String _ _ => false
  end.

(** [out.push_back(' ')] repeated [n] times on an empty string *)
Fixpoint spaces (n : nat) : string :=
  match n with
  | O => ""
  | S n' => String " " (spaces n')
  end.

(** The character of [out += '\n'] *)
Definition newline_char : ascii := "010"%char.

Definition newline : string := String newline_char "".

(* ================================================================== *)
(** ** parse_traits.hh *)

(** A full specialization [parse_traits<T>]: [parse] and [to_string]. *)
Class parse_traits (T : Type) : Type := {
  traits_parse : string -> option T;
  traits_to_string : T -> string
}.

(** [concept TraitPrintable]: [parse_traits<T>::to_string(t)] is well formed. *)
Class TraitPrintable (T : Type) : Type := {
  print : T -> string
}.

#[export] Instance parse_traits_printable (T : Type) `{parse_traits T}
  : TraitPrintable T := {| print := traits_to_string |}.

(** The free function [::to_string(t)]. *)
Definition to_string {T : Type} `{TraitPrintable T} (t : T) : string :=
  print t.

(** [concept explicitly_convertible_to<From, To>]: [static_cast<To>(from)]. *)
Class explicitly_convertible_to (From To : Type) : Type := {
  static_cast : From -> To
}.

#[export] Instance convertible_refl (T : Type) : explicitly_convertible_to T T :=
  {| static_cast := fun t => t |}.

(** [parse_traits<bool>] *)
#[export] Instance parse_traits_bool : parse_traits bool := {|
  traits_parse := fun text =>
    if String.eqb text "true" then Some true
    else if String.eqb text "false" then Some false
    else None;
  traits_to_string := fun x => if x then "true" else "false"
|}.

(** [parse_traits<std::string>] and [parse_traits<std::string_view>] *)
#[export] Instance parse_traits_string : parse_traits string := {|
  traits_parse := fun text => Some text;
  traits_to_string := fun s => s
|}.

(* ================================================================== *)
(** ** clp.hh: the option struct and the decorator layers *)

(** The struct [OptionTypeImpl] that [clp_Opt(type, var)] declares: one
    member [var] of type [type]. *)
Record OptionStruct : Type := {
  field : string;
  value_type : Type
}.

(** A value of the struct: [_get()] returns the member. *)
Record parse_result_type (T : OptionStruct) : Type := ParseResult {
  _get : value_type T
}.
Arguments ParseResult {T} _.
Arguments _get {T} _.

(** The class that an [OptionInterface<Base>] derives from: [Option<T>] under
    a stack of [With...<Base>] layers, outermost (most derived) first.  The
    traits of a stored type are those the template is instantiated with. *)
Inductive Base (T : OptionStruct) : Type :=
| Option (type_name : string) (traits : parse_traits (value_type T))
| WithCheck (base : Base T) (validation_predicate : value_type T -> bool)
    (error_message : string)
| WithImplicitValue (base : Base T) (U : Type)
    (conv : explicitly_convertible_to U (value_type T))
    (printable : TraitPrintable U) (implicit_value : U)
| WithDefaultValue (base : Base T) (U : Type)
    (conv : explicitly_convertible_to U (value_type T))
    (printable : TraitPrintable U) (default_value : U)
| WithDescription (base : Base T) (description : string)
| WithPattern (base : Base T) (pattern : string)
| WithCustomParser (base : Base T)
    (custom_parser : string -> option (value_type T))
| WithCustomHint (base : Base T) (custom_hint : string).

Arguments Option {T} type_name {traits}.
Arguments WithCheck {T} base validation_predicate error_message.
Arguments WithImplicitValue {T} base {U conv printable} implicit_value.
Arguments WithDefaultValue {T} base {U conv printable} default_value.
Arguments WithDescription {T} base description.
Arguments WithPattern {T} base pattern.
Arguments WithCustomParser {T} base custom_parser.
Arguments WithCustomHint {T} base custom_hint.

(** A value stored in a layer together with the conversion and the
    stringifier of its own type. *)
Record Stored (V : Type) : Type := MkStored {
  stored_type : Type;
  stored_conv : explicitly_convertible_to stored_type V;
  stored_printable : TraitPrintable stored_type;
  stored_value : stored_type
}.
Arguments MkStored {V stored_type} stored_conv stored_printable stored_value.
Arguments stored_value {V} _.

(** [ValueType(t)] on a stored value *)
Definition stored_cast {V : Type} (s : Stored V) : V :=
  @static_cast _ _ (stored_conv V s) (stored_value s).

(** [::to_string(t)] on a stored value *)
Definition stored_to_string {V : Type} (s : Stored V) : string :=
  @to_string _ (stored_printable V s) (stored_value s).

(** [make_parse_result<ParseResultType>(t)]: [ParseResultType{ValueType(t)}] *)
Definition make_parse_result {T : OptionStruct} (t : Stored (value_type T))
  : parse_result_type T :=
  ParseResult (stored_cast t).

Section Layers.
Context {T : OptionStruct}.

(** [concept Pattern<Base>]: the class has a member [match]. *)
Fixpoint Pattern (b : Base T) : bool :=
  match b with
  | Option _ => false
  | WithPattern _ _ => true
  | WithCheck base _ _ | WithImplicitValue base _ | WithDefaultValue base _
  | WithDescription base _ | WithCustomParser base _
  | WithCustomHint base _ => Pattern base
  end.

(** What [WithPattern::match] does with its own pattern. *)
Definition match_pattern (pattern text : string) : option string :=
  if starts_with text pattern then
    if Nat.eqb (String.length text) (String.length pattern) then Some ""
    else
      match String.get (String.length pattern) text with
      | Some c =>
          if Ascii.eqb c "="
          then Some (substr (String.length pattern + 1) text)
          else None
      | None => None
      end
  else None.

(** [match(text)], looked up through the layers: the member of the
    nearest [WithPattern] layer; a class without one has no [match]
    (modelled as no match). *)
Fixpoint match_ (b : Base T) (text : string) : option string :=
  match b with
  | Option _ => None
  | WithPattern base pattern =>
      match (if Pattern base then match_ base text else None) with
      | Some matched => Some matched
      | None => match_pattern pattern text
      end
  | WithCheck base _ _ | WithImplicitValue base _ | WithDefaultValue base _
  | WithDescription base _ | WithCustomParser base _
  | WithCustomHint base _ => match_ base text
  end.

(** [patterns_to_string()] *)
Fixpoint patterns_to_string (b : Base T) : string :=
  match b with
  | Option _ => ""
  | WithPattern base pattern =>
      (if Pattern base then patterns_to_string base ++ ", " else "")
      ++ pattern
  | WithCheck base _ _ | WithImplicitValue base _ | WithDefaultValue base _
  | WithDescription base _ | WithCustomParser base _
  | WithCustomHint base _ => patterns_to_string base
  end.

(** The patterns of a leaf in the order they were attached. *)
Fixpoint patterns (b : Base T) : list string :=
  match b with
  | Option _ => []
  | WithPattern base pattern => patterns base ++ [pattern]
  | WithCheck base _ _ | WithImplicitValue base _ | WithDefaultValue base _
  | WithDescription base _ | WithCustomParser base _
  | WithCustomHint base _ => patterns base
  end.

(** [this->implicit_value]: the member of the most derived
    [WithImplicitValue] layer; [None] when [HasImplicitValue<Base>] is
    false. *)
Fixpoint implicit_value_of (b : Base T) : option (Stored (value_type T)) :=
  match b with
  | Option _ => None
  | @WithImplicitValue _ _ U conv printable implicit_value =>
      Some (MkStored conv printable implicit_value)
  | WithCheck base _ _ | WithDefaultValue base _
  | WithDescription base _ | WithPattern base _ | WithCustomParser base _
  | WithCustomHint base _ => implicit_value_of base
  end.

(** [this->default_value]; [None] when [HasDefaultValue<Base>] is false. *)
Fixpoint default_value_of (b : Base T) : option (Stored (value_type T)) :=
  match b with
  | Option _ => None
  | @WithDefaultValue _ _ U conv printable default_value =>
      Some (MkStored conv printable default_value)
  | WithCheck base _ _ | WithImplicitValue base _
  | WithDescription base _ | WithPattern base _ | WithCustomParser base _
  | WithCustomHint base _ => default_value_of base
  end.

(** [this->description]; [None] when [HasDescription<Base>] is false. *)
Fixpoint description_of (b : Base T) : option string :=
  match b with
  | Option _ => None
  | WithDescription _ description => Some description
  | WithCheck base _ _ | WithImplicitValue base _ | WithDefaultValue base _
  | WithPattern base _ | WithCustomParser base _
  | WithCustomHint base _ => description_of base
  end.

Definition HasImplicitValue (b : Base T) : bool :=
  match implicit_value_of b with Some _ => true | None => false end.
Definition HasDefaultValue (b : Base T) : bool :=
  match default_value_of b with Some _ => true | None => false end.
Definition HasDescription (b : Base T) : bool :=
  match description_of b with Some _ => true | None => false end.

(** [concept HasValidationCheck<Base>]: the class has a member [validate]. *)
Fixpoint HasValidationCheck (b : Base T) : bool :=
  match b with
  | Option _ => false
  | WithCheck _ _ _ => true
  | WithImplicitValue base _ | WithDefaultValue base _
  | WithDescription base _ | WithPattern base _ | WithCustomParser base _
  | WithCustomHint base _ => HasValidationCheck base
  end.

(** [validate(t)]: [WithCheck::validate] asks the base first when the base
    has a check, then its own predicate.  A class without a check has no
    [validate]; [OptionInterface::parse] only calls it under
    [HasValidationCheck] (modelled as [true]). *)
Fixpoint validate (b : Base T) (t : parse_result_type T) : bool :=
  match b with
  | Option _ => true
  | WithCheck base validation_predicate _ =>
      if HasValidationCheck base && negb (validate base t) then false
      else validation_predicate (_get t)
  | WithImplicitValue base _ | WithDefaultValue base _
  | WithDescription base _ | WithPattern base _ | WithCustomParser base _
  | WithCustomHint base _ => validate base t
  end.

(** [parse_impl(argument_text)]: the member of the most derived
    [WithCustomParser] layer, else [Option::parse_impl] with the traits of
    the value type. *)
Fixpoint parse_impl (b : Base T) (argument_text : string)
  : option (parse_result_type T) :=
  match b with
  | @Option _ _ traits =>
      match @traits_parse _ traits argument_text with
      | Some value => Some (ParseResult value)
      | None => None
      end
  | WithCustomParser _ custom_parser =>
      match custom_parser argument_text with
      | Some value => Some (ParseResult value)
      | None => None
      end
  | WithCheck base _ _ | WithImplicitValue base _ | WithDefaultValue base _
  | WithDescription base _ | WithPattern base _
  | WithCustomHint base _ => parse_impl base argument_text
  end.

(** [hint_text()]: the most derived [WithCustomHint], else the type name. *)
Fixpoint hint_text (b : Base T) : string :=
  match b with
  | Option type_name => type_name
  | WithCustomHint _ custom_hint => custom_hint
  | WithCheck base _ _ | WithImplicitValue base _ | WithDefaultValue base _
  | WithDescription base _ | WithPattern base _
  | WithCustomParser base _ => hint_text base
  end.

End Layers.

(* ================================================================== *)
(** ** clp.inl: [OptionInterface<Base>] *)

Section OptionInterface.
Context {T : OptionStruct}.

(** The tail of the loop body of [OptionInterface::parse]: convert the
    matched text, then ask the validation check when there is one. *)
Definition convert_checked (b : Base T) (matched : string)
  : option (parse_result_type T) :=
  let parse_result := parse_impl b matched in
  if HasValidationCheck b then
    match parse_result with
    | Some r => if negb (validate b r) then None else parse_result
    | None => parse_result
    end
  else parse_result.

(** The body of the loop of [OptionInterface::parse] once [match] has
    returned [matched]. *)
Definition parse_matched (b : Base T) (matched : string)
  : option (parse_result_type T) :=
  match implicit_value_of b with
  | Some i =>
      if empty matched then Some (make_parse_result i)
      else convert_checked b matched
  | None => convert_checked b matched
  end.

(** [OptionInterface<Base>::parse(argc, argv)] *)
Fixpoint OptionInterface_parse (b : Base T) (args : list string)
  : option (parse_result_type T) :=
  match args with
  | arg :: rest =>
      match match_ b arg with
      | Some matched => parse_matched b matched
      | None => OptionInterface_parse b rest
      end
  | [] =>
      match default_value_of b with
      | Some d => Some (make_parse_result d)
      | None => None
      end
  end.

Definition column_width : nat := 40.

(** [while (out.size() < column_width) out.push_back(' ')] *)
Definition pad (out : string) : string :=
  out ++ spaces (column_width - String.length out).

(** [OptionInterface<Base>::to_string()]; [None] where the [requires
    HasDescription<Base>] clause does not hold. *)
Definition OptionInterface_to_string (b : Base T) : option string :=
  match description_of b with
  | None => None
  | Some description =>
      let out := patterns_to_string b in
      let out := out ++ " <" in
      let out := out ++ hint_text b in
      let out := out ++ ">" in
      let out := pad out in
      let out := out ++ description in
      let out :=
        match default_value_of b with
        | Some d =>
            (((out ++ newline) ++ spaces column_width) ++ "By default: ")
            ++ stored_to_string d
        | None => out
        end in
      let out :=
        match implicit_value_of b with
        | Some i =>
            (((out ++ newline) ++ spaces column_width) ++ "Implicitly: ")
            ++ stored_to_string i
        | None => out
        end in
      Some (out ++ newline)
  end.

End OptionInterface.

(** The member functions of [OptionInterface<Base>] that add a layer.  A
    [requires] clause that does not hold makes the call ill-formed: [None]. *)
Section Builders.
Context {T : OptionStruct}.

(** [operator () (description)], [requires(!HasDescription<Base>)] *)
Definition describe (b : Base T) (description : string) : option (Base T) :=
  if HasDescription b then None else Some (WithDescription b description).

(** [operator [] (pattern)] *)
Definition with_pattern (b : Base T) (pattern : string) : Base T :=
  WithPattern b pattern.

(** [default_to(default_value)], [requires(!HasDefaultValue<Base>)] *)
Definition default_to (b : Base T) (d : Stored (value_type T))
  : option (Base T) :=
  if HasDefaultValue b then None
  else Some (@WithDefaultValue T b _ (stored_conv _ d) (stored_printable _ d)
               (stored_value d)).

(** [implicitly(implicit_value)], [requires(!HasImplicitValue<Base>)] *)
Definition implicitly (b : Base T) (i : Stored (value_type T))
  : option (Base T) :=
  if HasImplicitValue b then None
  else Some (@WithImplicitValue T b _ (stored_conv _ i) (stored_printable _ i)
               (stored_value i)).

(** [check(predicate, error_message)] *)
Definition check (b : Base T) (predicate : value_type T -> bool)
  (error_message : string) : Base T :=
  WithCheck b predicate error_message.

(** [custom_parser(parser_function)] *)
Definition custom_parser (b : Base T)
  (parser_function : string -> option (value_type T)) : Base T :=
  WithCustomParser b parser_function.

(** [hint(custom_hint)] *)
Definition hint (b : Base T) (custom_hint : string) : Base T :=
  WithCustomHint b custom_hint.

End Builders.

(** [clp_Opt(type, var)]: [OptionInterface(Option<OptionTypeImpl>(#type))] *)
Definition clp_Opt (type : Type) `{parse_traits type} (type_name var : string)
  : Base {| field := var; value_type := type |} :=
  @Option {| field := var; value_type := type |} type_name _.

(** A stored value of the value type itself. *)
Definition stored {V : Type} `{TraitPrintable V} (v : V) : Stored V :=
  MkStored (convertible_refl V) _ v.

(** The capabilities of a leaf, and a request to attach one. *)
Inductive capability : Type :=
| cap_pattern | cap_description | cap_default | cap_implicit
| cap_validator | cap_converter | cap_hint.

Inductive decorator (T : OptionStruct) : Type :=
| add_pattern (pattern : string)
| add_description (description : string)
| add_default (d : Stored (value_type T))
| add_implicit (i : Stored (value_type T))
| add_check (predicate : value_type T -> bool) (error_message : string)
| add_custom_parser (parser_function : string -> option (value_type T))
| add_hint (custom_hint : string).
Arguments add_pattern {T}.
Arguments add_description {T}.
Arguments add_default {T}.
Arguments add_implicit {T}.
Arguments add_check {T}.
Arguments add_custom_parser {T}.
Arguments add_hint {T}.

Definition capability_of {T : OptionStruct} (d : decorator T) : capability :=
  match d with
  | add_pattern _ => cap_pattern
  | add_description _ => cap_description
  | add_default _ => cap_default
  | add_implicit _ => cap_implicit
  | add_check _ _ => cap_validator
  | add_custom_parser _ => cap_converter
  | add_hint _ => cap_hint
  end.

(** Whether some layer of the leaf gives the capability. *)
Fixpoint has_capability {T : OptionStruct} (c : capability) (b : Base T) : bool :=
  match b with
  | Option _ => false
  | WithCheck base _ _ =>
      match c with cap_validator => true | _ => has_capability c base end
  | WithImplicitValue base _ =>
      match c with cap_implicit => true | _ => has_capability c base end
  | WithDefaultValue base _ =>
      match c with cap_default => true | _ => has_capability c base end
  | WithDescription base _ =>
      match c with cap_description => true | _ => has_capability c base end
  | WithPattern base _ =>
      match c with cap_pattern => true | _ => has_capability c base end
  | WithCustomParser base _ =>
      match c with cap_converter => true | _ => has_capability c base end
  | WithCustomHint base _ =>
      match c with cap_hint => true | _ => has_capability c base end
  end.

(** The call of the member function that a request stands for; [None] when
    the call is ill-formed. *)
Definition attach {T : OptionStruct} (d : decorator T) (b : Base T)
  : option (Base T) :=
  match d with
  | add_pattern pattern => Some (with_pattern b pattern)
  | add_description description => describe b description
  | add_default v => default_to b v
  | add_implicit v => implicitly b v
  | add_check predicate error_message => Some (check b predicate error_message)
  | add_custom_parser parser_function => Some (custom_parser b parser_function)
  | add_hint custom_hint => Some (hint b custom_hint)
  end.

(* ================================================================== *)
(** ** [Compound<Options...>] *)

(** [concept SingleOption]: the option has [match] and [parse_impl]. *)
Definition SingleOption {T : OptionStruct} (b : Base T) : bool := Pattern b.

(** [concept Parser]: [parser.parse(argc, argv)] returns an optional
    [parse_result_type]. *)
#[universes(polymorphic)] Class Parser (P : Type) : Type := {
  Parser_result : Type;
  Parser_parse : P -> list string -> option Parser_result
}.
Arguments Parser_result P {_}.

(** The pack of options a compound derives from, in template order. *)
Inductive Compound : list OptionStruct -> Type :=
| CompoundNil : Compound []
| CompoundCons {T : OptionStruct} {Ts : list OptionStruct}
    (option : Base T) (options : Compound Ts) : Compound (T :: Ts).

(** [Compound::parse_result_type]: a struct deriving from the result struct
    of every option, so holding every option's member. *)
Fixpoint Compound_result (Ts : list OptionStruct) : Type :=
  match Ts with
  | [] => unit
  | T :: Ts' => (parse_result_type T * Compound_result Ts')%type
  end.

(** The type of the captured pack [opts] of [Compound::parse]. *)
Fixpoint Compound_opts_type (Ts : list OptionStruct) : Type :=
  match Ts with
  | [] => unit
  | T :: Ts' => (option (parse_result_type T) * Compound_opts_type Ts')%type
  end.

(** [...opts = this->access_option<Options>().parse(argc, argv)] *)
Fixpoint Compound_opts {Ts : list OptionStruct} (c : Compound Ts)
  (args : list string) : Compound_opts_type Ts :=
  match c with
  | CompoundNil => tt
  | CompoundCons option options =>
      (OptionInterface_parse option args, Compound_opts options args)
  end.

(** [(opts && ...)] *)
Fixpoint all_engaged (Ts : list OptionStruct) : Compound_opts_type Ts -> bool :=
  match Ts with
  | [] => fun _ => true
  | T :: Ts' => fun opts =>
      match fst opts with
      | Some _ => all_engaged Ts' (snd opts)
      | None => false
      end
  end.

(** The aggregate [parse_result_type] built from every optional of the pack
    dereferenced; an empty optional has no value to give. *)
Fixpoint deref_all (Ts : list OptionStruct)
  : Compound_opts_type Ts -> option (Compound_result Ts) :=
  match Ts with
  | [] => fun _ => Some tt
  | T :: Ts' => fun opts =>
      match fst opts, deref_all Ts' (snd opts) with
      | Some v, Some r => Some (v, r)
      | _, _ => None
      end
  end.

(** [Compound<Options...>::parse(argc, argv)] *)
Definition Compound_parse {Ts : list OptionStruct} (c : Compound Ts)
  (args : list string) : option (Compound_result Ts) :=
  let opts := Compound_opts c args in
  if negb (all_engaged Ts opts) then None
  else deref_all Ts opts.

(** [Compound<Options...>::to_string()]; every option needs a description. *)
Fixpoint Compound_to_string {Ts : list OptionStruct} (c : Compound Ts)
  : option string :=
  match c with
  | CompoundNil => Some ""
  | CompoundCons option options =>
      match OptionInterface_to_string option, Compound_to_string options with
      | Some s, Some rest => Some (s ++ rest)
      | _, _ => None
      end
  end.

(** Access to the member named [name] of a result struct, with its type. *)
Fixpoint Compound_field (name : string) (Ts : list OptionStruct)
  : Compound_result Ts -> option {V : Type & V} :=
  match Ts with
  | [] => fun _ => None
  | T :: Ts' => fun r =>
      if String.eqb (field T) name
      then Some (existT (fun V : Type => V) (value_type T) (_get (fst r)))
      else Compound_field name Ts' (snd r)
  end.

(** The four overloads of [operator |] on options and compounds. *)
Fixpoint Compound_app {As Bs : list OptionStruct} (a : Compound As)
  (b : Compound Bs) : Compound (As ++ Bs) :=
  match a in Compound As0 return Compound (As0 ++ Bs) with
  | CompoundNil => b
  | CompoundCons option options => CompoundCons option (Compound_app options b)
  end.

Definition or_options {A B : OptionStruct} (a : Base A) (b : Base B)
  : Compound [A; B] :=
  CompoundCons a (CompoundCons b CompoundNil).

Definition or_compound_option {As : list OptionStruct} {B : OptionStruct}
  (a : Compound As) (b : Base B) : Compound (As ++ [B]) :=
  Compound_app a (CompoundCons b CompoundNil).

Definition or_option_compound {A : OptionStruct} {Bs : list OptionStruct}
  (a : Base A) (b : Compound Bs) : Compound (A :: Bs) :=
  CompoundCons a b.

Definition or_compounds {As Bs : list OptionStruct} (a : Compound As)
  (b : Compound Bs) : Compound (As ++ Bs) :=
  Compound_app a b.

#[export, universes(polymorphic)] Instance Parser_OptionInterface
  (T : OptionStruct) : Parser (Base T) := {|
  Parser_result := parse_result_type T;
  Parser_parse := OptionInterface_parse
|}.

#[export, universes(polymorphic)] Instance Parser_Compound (Ts : list OptionStruct)
  : Parser (Compound Ts) := {|
  Parser_result := Compound_result Ts;
  Parser_parse := Compound_parse
|}.

(* ================================================================== *)
(** ** [Command<P>] and [CommandSelector<Commands...>] *)

#[universes(polymorphic)] Record Command (P : Type) `{Parser P} : Type := MkCommand {
  name : string;
  parser : P
}.
Arguments MkCommand {P _} name parser.
Arguments name {P _} _.
Arguments parser {P _} _.

(** [Command::match(text)] *)
#[universes(polymorphic)] Definition Command_match {P : Type} `{Parser P} (c : Command P)
  (text : string) : bool :=
  String.eqb text (name c).

(** [Command::parse(argc, argv)]: [parser.parse(argc - 1, argv + 1)] *)
#[universes(polymorphic)] Definition Command_parse {P : Type} `{Parser P} (c : Command P)
  (args : list string) : option (Parser_result P) :=
  Parser_parse (parser c) (tl args).

(** [concept CommandType]: [match(text)] and [parse(argc, argv)]. *)
#[universes(polymorphic)] Class CommandType (C : Type) : Type := {
  CommandType_result : Type;
  CommandType_match : C -> string -> bool;
  CommandType_parse : C -> list string -> option CommandType_result
}.
Arguments CommandType_result C {_}.

#[export, universes(polymorphic)] Instance CommandType_Command (P : Type) `{Parser P}
  : CommandType (Command P) := {|
  CommandType_result := Parser_result P;
  CommandType_match := Command_match;
  CommandType_parse := Command_parse
|}.

Inductive ShowHelp : Type := MkShowHelp.
Inductive Help : Type := MkHelp.

#[export, universes(polymorphic)] Instance CommandType_Help : CommandType Help := {|
  CommandType_result := ShowHelp;
  CommandType_match := fun _ text =>
    String.eqb text "--help" || String.eqb text "-h" || String.eqb text "-?";
  CommandType_parse := fun _ _ => Some MkShowHelp
|}.

(** One template argument of a selector: a type with its [CommandType]
    members. *)
#[universes(polymorphic)] Record CommandSig : Type := MkCommandSig {
  command_type : Type;
  command_members : CommandType command_type
}.

#[universes(polymorphic)] Definition sig_result (C : CommandSig) : Type :=
  @CommandType_result (command_type C) (command_members C).

#[universes(polymorphic)] Definition sig_match (C : CommandSig)
  : command_type C -> string -> bool :=
  @CommandType_match (command_type C) (command_members C).

#[universes(polymorphic)] Definition sig_parse (C : CommandSig)
  : command_type C -> list string -> option (sig_result C) :=
  @CommandType_parse (command_type C) (command_members C).

(** The signature of a [Command<P>]. *)
#[universes(polymorphic)] Definition CommandOf (P : Type) `{Parser P} : CommandSig :=
  MkCommandSig (Command P) _.

(** [std::variant<Rs...>]: the alternative at a position of the pack. *)
#[universes(polymorphic)] Inductive variant : list Type -> Type :=
| alternative_here {R : Type} {Rs : list Type} (r : R) : variant (R :: Rs)
| alternative_there {R : Type} {Rs : list Type} (v : variant Rs)
  : variant (R :: Rs).

(** The pack of commands a selector derives from, in template order. *)
#[universes(polymorphic)] Inductive CommandSelector : list CommandSig -> Type :=
| SelectorNil : CommandSelector []
| SelectorCons {C : CommandSig} {Cs : list CommandSig}
    (command : command_type C) (commands : CommandSelector Cs)
  : CommandSelector (C :: Cs).

(** [CommandSelector::parse_result_type] *)
#[universes(polymorphic)] Definition CommandSelector_result
  (Cs : list CommandSig) : Type :=
  variant (map sig_result Cs).

(** [detail::parse_impl<Next, Rest...>(commands, argc, argv)]; the result of
    [Next] is moved into the variant of the whole selector. *)
#[universes(polymorphic)] Fixpoint detail_parse_impl
  {Cs : list CommandSig} (commands : CommandSelector Cs)
  (args : list string) : option (CommandSelector_result Cs) :=
  match commands in CommandSelector Cs0
        return option (CommandSelector_result Cs0) with
  | SelectorNil => None
  | @SelectorCons C Cs' next rest =>
      if sig_match C next (hd "" args) then
        match sig_parse C next args with
        | None => None
        | Some result =>
            Some (@alternative_here (sig_result C) (map sig_result Cs') result)
        end
      else
        match detail_parse_impl rest args with
        | Some v =>
            Some (@alternative_there (sig_result C) (map sig_result Cs') v)
        | None => None
        end
  end.

(** [CommandSelector<Commands...>::parse(argc, argv)] *)
#[universes(polymorphic)] Definition CommandSelector_parse {Cs : list CommandSig}
  (commands : CommandSelector Cs) (args : list string)
  : option (CommandSelector_result Cs) :=
  match args with
  | [] => None
  | _ :: _ => detail_parse_impl commands args
  end.

(** [CommandSelector::match(text)] *)
#[universes(polymorphic)] Fixpoint CommandSelector_match {Cs : list CommandSig}
  (commands : CommandSelector Cs) (text : string) : bool :=
  match commands with
  | SelectorNil => false
  | @SelectorCons C _ command rest =>
      sig_match C command text || CommandSelector_match rest text
  end.

(** The overloads of [operator |] on commands and selectors. *)
#[universes(polymorphic)] Fixpoint CommandSelector_app
  {As Bs : list CommandSig} (a : CommandSelector As)
  (b : CommandSelector Bs) : CommandSelector (As ++ Bs) :=
  match a in CommandSelector As0 return CommandSelector (As0 ++ Bs) with
  | SelectorNil => b
  | SelectorCons command commands =>
      SelectorCons command (CommandSelector_app commands b)
  end.

#[universes(polymorphic)] Definition or_commands {A B : CommandSig} (a : command_type A)
  (b : command_type B) : CommandSelector [A; B] :=
  SelectorCons a (SelectorCons b SelectorNil).

#[universes(polymorphic)] Definition or_selector_command
  {As : list CommandSig} {B : CommandSig}
  (a : CommandSelector As) (b : command_type B) : CommandSelector (As ++ [B]) :=
  CommandSelector_app a (SelectorCons b SelectorNil).

#[universes(polymorphic)] Definition or_command_selector
  {A : CommandSig} {Bs : list CommandSig}
  (a : command_type A) (b : CommandSelector Bs) : CommandSelector (A :: Bs) :=
  SelectorCons a b.

#[universes(polymorphic)] Definition or_selectors
  {As Bs : list CommandSig} (a : CommandSelector As)
  (b : CommandSelector Bs) : CommandSelector (As ++ Bs) :=
  CommandSelector_app a b.

#[export, universes(polymorphic)] Instance Parser_CommandSelector (Cs : list CommandSig)
  : Parser (CommandSelector Cs) := {|
  Parser_result := CommandSelector_result Cs;
  Parser_parse := CommandSelector_parse
|}.

(* ================================================================== *)
(** ** [CommandWithSharedOptions<SharedOptions, Commands>] *)

#[universes(polymorphic)] Record CommandWithSharedOptions
  (SharedOptions : Type) `{Parser SharedOptions} (Cs : list CommandSig)
  : Type := MkCommandWithSharedOptions {
  shared_options : SharedOptions;
  commands : CommandSelector Cs
}.
Arguments MkCommandWithSharedOptions {SharedOptions _ Cs}.
Arguments shared_options {SharedOptions _ Cs} _.
Arguments commands {SharedOptions _ Cs} _.

(** [CommandWithSharedOptions::parse_result_type] *)
#[universes(polymorphic)] Record CommandWithSharedOptions_result
  (SharedOptions : Type) `{Parser SharedOptions} (Cs : list CommandSig)
  : Type := MkSharedResult {
  shared_arguments : Parser_result SharedOptions;
  command : CommandSelector_result Cs
}.
Arguments MkSharedResult {SharedOptions _ Cs}.
Arguments shared_arguments {SharedOptions _ Cs} _.
Arguments command {SharedOptions _ Cs} _.

(** Modelled from the spec: the body of [CommandWithSharedOptions::parse],
    declared in clp.hh, is not in clp.inl.  The spec (4.4): parse the
    shared-options parser against the full argument list; independently parse
    the command selector against the full argument list; both parses must
    succeed; the aggregate result carries both. *)
#[universes(polymorphic)] Definition CommandWithSharedOptions_parse
  {SharedOptions : Type} `{Parser SharedOptions} {Cs : list CommandSig}
  (w : CommandWithSharedOptions SharedOptions Cs) (args : list string)
  : option (CommandWithSharedOptions_result SharedOptions Cs) :=
  match Parser_parse (shared_options w) args,
        CommandSelector_parse (commands w) args with
  | Some shared, Some selected => Some (MkSharedResult shared selected)
  | _, _ => None
  end.

(* ================================================================== *)
(** ** parse_traits.hh: the integer types *)

(** The integer types with a [charconv_to_string_parse_traits]. *)
Record IntType : Type := MkIntType {
  is_signed : bool;
  width : nat
}.

Definition int16_t : IntType := MkIntType true 16.
Definition uint16_t : IntType := MkIntType false 16.
Definition int32_t : IntType := MkIntType true 32.
Definition uint32_t : IntType := MkIntType false 32.
Definition int64_t : IntType := MkIntType true 64.
Definition uint64_t : IntType := MkIntType false 64.

(** [std::numeric_limits<T>::min()] and [max()] *)
Definition int_min (it : IntType) : Z :=
  if is_signed it then (- 2 ^ (Z.of_nat (width it) - 1))%Z else 0%Z.
Definition int_max (it : IntType) : Z :=
  if is_signed it then (2 ^ (Z.of_nat (width it) - 1) - 1)%Z
  else (2 ^ Z.of_nat (width it) - 1)%Z.

Definition in_range (it : IntType) (x : Z) : bool :=
  (int_min it <=? x)%Z && (x <=? int_max it)%Z.

(** A value of the integer type [it]. *)
Record integer (it : IntType) : Type := MkInteger {
  integer_value : Z
}.
Arguments MkInteger {it} _.
Arguments integer_value {it} _.

Definition is_digit (c : ascii) : bool :=
  ((48 <=? nat_of_ascii c) && (nat_of_ascii c <=? 57))%nat.

Definition digit_value (c : ascii) : Z :=
  Z.of_nat (nat_of_ascii c - 48).

(** The longest run of decimal digits at the front of [s]: how many there
    are, and their value on top of the accumulator. *)
Fixpoint scan_digits (s : string) (acc : Z) : nat * Z :=
  match s with
  | String c rest =>
      if is_digit c then
        let '(n, v) := scan_digits rest (acc * 10 + digit_value c)%Z in
        (S n, v)
      else (O, acc)
  | EmptyString => (O, acc)
  end.

(** [std::errc], the values [std::from_chars] reports *)
Inductive errc : Type :=
| errc_none | errc_invalid_argument | errc_result_out_of_range.

Definition errc_eqb (a b : errc) : bool :=
  match a, b with
  | errc_none, errc_none => true
  | errc_invalid_argument, errc_invalid_argument => true
  | errc_result_out_of_range, errc_result_out_of_range => true
  | _, _ => false
  end.

(** [std::from_chars_result]; [ptr] as an offset from [text.data()] *)
Record from_chars_result : Type := MkFromCharsResult {
  ptr : nat;
  ec : errc
}.

(** [std::from_chars(first, last, value)] of the C++ standard library for an
    integer type in base 10 (C++17, charconv.from.chars): a minus sign is
    accepted for a signed type only, no plus sign and no white space; then
    the longest run of digits.  No digit: [invalid_argument], [ptr] is
    [first].  Value not representable: [result_out_of_range], [ptr] past the
    digits.  Otherwise the value is stored.  The second component is the
    value stored, [None] when [value] is left unmodified. *)
Definition from_chars_digits (it : IntType) (negative : bool) (body : string)
  : from_chars_result * option Z :=
  let '(n, v) := scan_digits body 0%Z in
  let consumed := (if negative then 1 else 0) + n in
  match n with
  | O => (MkFromCharsResult 0 errc_invalid_argument, None)
  | S _ =>
      let x := if negative then (- v)%Z else v in
      if in_range it x then (MkFromCharsResult consumed errc_none, Some x)
      else (MkFromCharsResult consumed errc_result_out_of_range, None)
  end.

Definition from_chars (it : IntType) (text : string)
  : from_chars_result * option Z :=
  match text with
  | String c rest =>
      if Ascii.eqb c "-" && is_signed it
      then from_chars_digits it true rest
      else from_chars_digits it false text
  | EmptyString => from_chars_digits it false text
  end.

(** [charconv_to_string_parse_traits<T>::parse(text)] *)
Definition charconv_parse (it : IntType) (text : string) : option (integer it) :=
  let '(result, x) := from_chars it text in
  if negb (errc_eqb (ec result) errc_none)
     || negb (ptr result =? String.length text)%nat
  then None
  else
    match x with
    | Some v => Some (MkInteger v)
    | None => None
    end.

(** [charconv_to_string_parse_traits<T>::to_string(x)]: [std::to_string(x)] *)
Definition charconv_to_string (it : IntType) (x : integer it) : string :=
  NilZero.string_of_int (Z.to_int (integer_value x)).

#[export] Instance parse_traits_integer (it : IntType) : parse_traits (integer it) := {|
  traits_parse := charconv_parse it;
  traits_to_string := charconv_to_string it
|}.

(** [clp::constant_range<T, N>]: the array; [N] is its length. *)
Record constant_range (T : Type) : Type := MkConstantRange {
  array : list T
}.
Arguments MkConstantRange {T} _.
Arguments array {T} _.

(** The explicit conversion of a [constant_range] to a range of its
    elements. *)
#[export] Instance constant_range_convertible (T : Type)
  : explicitly_convertible_to (constant_range T) (list T) :=
  {| static_cast := array |}.

(** [result.pop_back()] *)
Fixpoint pop_back (s : string) : string :=
  match s with
  | EmptyString => EmptyString
  | String c EmptyString => EmptyString
  | String c rest => String c (pop_back rest)
  end.

(** [parse_traits<clp::constant_range<T, N>>::to_string(r)] *)
Definition constant_range_to_string {T : Type} `{parse_traits T}
  (r : constant_range T) : string :=
  let result :=
    fold_left (fun result t => (result ++ traits_to_string t) ++ " ")
      (array r) "" in
  if negb (empty result) then pop_back result else result.

#[export] Instance constant_range_printable (T : Type) `{parse_traits T}
  : TraitPrintable (constant_range T) :=
  {| print := constant_range_to_string |}.

(** [clp_Flag(var)]: [clp_Opt(bool, var).default_to(false).implicitly(true)] *)
Definition clp_Flag (var : string)
  : Base {| field := var; value_type := bool |} :=
  WithImplicitValue (U := bool)
    (WithDefaultValue (U := bool) (clp_Opt bool "bool" var) false) true.

(* ================================================================== *)
(** ** Specification vocabulary *)

(** A token is accepted by one pattern with a matched text: the token starts
    with the pattern, and either it is no longer than the pattern and the
    matched text is empty, or the pattern is followed by ['='] and the
    matched text is what follows. *)
Definition accepts (pattern token matched : string) : Prop :=
  (exists rest, token = pattern ++ rest) /\
  ((String.length token = String.length pattern /\ matched = "") \/
   token = pattern ++ String "="%char matched).

(** The first pattern of a list, in order, that accepts the token. *)
Definition first_accepting (ps : list string) (token matched : string) : Prop :=
  exists before p after,
    ps = (before ++ p :: after)%list /\
    (forall q m, In q before -> ~ accepts q token m) /\
    accepts p token matched.

(** The patterns of a list tried in order with [match_pattern]. *)
Fixpoint first_match (ps : list string) (text : string) : option string :=
  match ps with
  | [] => None
  | p :: ps' =>
      match match_pattern p text with
      | Some matched => Some matched
      | None => first_match ps' text
      end
  end.

(** No token of the list matches the leaf. *)
Definition absent {T : OptionStruct} (b : Base T) (args : list string) : Prop :=
  Forall (fun token => match_ b token = None) args.

(** [token] is the first token of [args] that matches the leaf, with matched
    text [matched]. *)
Definition first_matching {T : OptionStruct} (b : Base T) (args : list string)
  (token matched : string) : Prop :=
  exists before after,
    args = (before ++ token :: after)%list /\
    absent b before /\
    match_ b token = Some matched.

(** Every option of the compound parses [args] and the struct [r] holds
    their results, member by member. *)
Inductive all_succeeded (args : list string)
  : forall Ts : list OptionStruct, Compound Ts -> Compound_result Ts -> Prop :=
| all_succeeded_nil : all_succeeded args [] CompoundNil tt
| all_succeeded_cons (T : OptionStruct) (Ts : list OptionStruct)
    (o : Base T) (os : Compound Ts) (v : parse_result_type T)
    (r : Compound_result Ts) :
    OptionInterface_parse o args = Some v ->
    all_succeeded args Ts os r ->
    all_succeeded args (T :: Ts) (CompoundCons o os) (v, r).

(** Some option of the compound fails on [args]. *)
Inductive some_failed (args : list string)
  : forall Ts : list OptionStruct, Compound Ts -> Prop :=
| some_failed_here (T : OptionStruct) (Ts : list OptionStruct)
    (o : Base T) (os : Compound Ts) :
    OptionInterface_parse o args = None ->
    some_failed args (T :: Ts) (CompoundCons o os)
| some_failed_there (T : OptionStruct) (Ts : list OptionStruct)
    (o : Base T) (os : Compound Ts) :
    some_failed args Ts os ->
    some_failed args (T :: Ts) (CompoundCons o os).

(** The pack holds, for every option of the compound, what that option's
    parse returns on [args]. *)
Inductive pack_of (args : list string)
  : forall Ts : list OptionStruct, Compound Ts -> Compound_opts_type Ts -> Prop :=
| pack_of_nil : pack_of args [] CompoundNil tt
| pack_of_cons (T : OptionStruct) (Ts : list OptionStruct)
    (o : Base T) (os : Compound Ts) (p : Compound_opts_type Ts) :
    pack_of args Ts os p ->
    pack_of args (T :: Ts) (CompoundCons o os) (OptionInterface_parse o args, p).

(** A value with its type, as [Compound_field] returns it. *)
Definition typed (V : Type) (v : V) : {V : Type & V} :=
  existT (fun V : Type => V) V v.

(** A member of a result struct as a value with its type. *)
Definition member {T : OptionStruct} (v : parse_result_type T)
  : {V : Type & V} :=
  typed (value_type T) (_get v).

(** [c] is the first command of the selector, in template order, that
    matches [token]; [wrap] puts a result of [c] into the alternative of the
    selector's variant that belongs to [c]. *)
Inductive selects (token : string)
  : forall Cs : list CommandSig, CommandSelector Cs ->
    forall C : CommandSig, command_type C ->
    (sig_result C -> CommandSelector_result Cs) -> Prop :=
| selects_here (C : CommandSig) (Cs : list CommandSig)
    (c : command_type C) (rest : CommandSelector Cs) :
    sig_match C c token = true ->
    selects token (C :: Cs) (SelectorCons c rest) C c
      (@alternative_here (sig_result C) (map sig_result Cs))
| selects_there (C0 : CommandSig) (Cs : list CommandSig)
    (c0 : command_type C0) (rest : CommandSelector Cs)
    (C : CommandSig) (c : command_type C)
    (wrap : sig_result C -> CommandSelector_result Cs) :
    sig_match C0 c0 token = false ->
    selects token Cs rest C c wrap ->
    selects token (C0 :: Cs) (SelectorCons c0 rest) C c
      (fun r => @alternative_there (sig_result C0) (map sig_result Cs) (wrap r)).

(** No command of the selector matches [token]. *)
Inductive none_matches (token : string)
  : forall Cs : list CommandSig, CommandSelector Cs -> Prop :=
| none_matches_nil : none_matches token [] SelectorNil
| none_matches_cons (C : CommandSig) (Cs : list CommandSig)
    (c : command_type C) (rest : CommandSelector Cs) :
    sig_match C c token = false ->
    none_matches token Cs rest ->
    none_matches token (C :: Cs) (SelectorCons c rest).

(** The value of a run of decimal digits, by position. *)
Fixpoint decimal_value (digits : string) : Z :=
  match digits with
  | EmptyString => 0%Z
  | String c rest =>
      (digit_value c * 10 ^ Z.of_nat (String.length rest) + decimal_value rest)%Z
  end.

Fixpoint all_digits (s : string) : bool :=
  match s with
  | EmptyString => true
  | String c rest => is_digit c && all_digits rest
  end.

(** The whole text is a numeral of the integer type with value [x]: an
    optional minus sign (signed types only), one or more decimal digits and
    nothing else, and the value is representable. *)
Definition numeral (it : IntType) (text : string) (x : Z) : Prop :=
  exists digits,
    digits <> "" /\ all_digits digits = true /\
    ((text = digits /\ x = decimal_value digits) \/
     (is_signed it = true /\ text = String "-"%char digits /\
      x = (- decimal_value digits)%Z)) /\
    (int_min it <= x <= int_max it)%Z.

(** The numeric parse consumes the entire text: [result.ptr] is the end of
    the text. *)
Definition consumes_entire_text (it : IntType) (text : string) : Prop :=
  ptr (fst (from_chars it text)) = String.length text.

(** The first line of the help text of a leaf. *)
Definition help_first_line {T : OptionStruct} (b : Base T) (description : string)
  : string :=
  pad (((patterns_to_string b ++ " <") ++ hint_text b) ++ ">") ++ description.

(** A line of the help text under the description: the label at the column
    of the descriptions, then the displayed value. *)
Definition help_value_text (label shown : string) : string :=
  spaces column_width ++ label ++ shown.

(** The same line after the line break that starts it. *)
Definition help_value_line (label shown : string) : string :=
  newline ++ help_value_text label shown.

(** The line of a stored value, when the leaf has the value. *)
Definition help_value_lines {V : Type} (label : string) (v : option (Stored V))
  : list string :=
  match v with
  | Some d => [help_value_text label (stored_to_string d)]
  | None => []
  end.

(** The text has no line break. *)
Fixpoint no_newline (s : string) : bool :=
  match s with
  | EmptyString => true
  | String c rest => negb (Ascii.eqb c newline_char) && no_newline rest
  end.

(** The lines of a text: the pieces between its line breaks. *)
Fixpoint lines (s : string) : list string :=
  match s with
  | EmptyString => [""]
  | String c rest =>
      if Ascii.eqb c newline_char then "" :: lines rest
      else
        match lines rest with
        | l :: ls => String c l :: ls
        | [] => [String c ""]
        end
  end.

(* ================================================================== *)
(** ** The parsers of the README, used in the examples *)

Definition width_struct : OptionStruct :=
  {| field := "width"; value_type := integer int32_t |}.
Definition height_struct : OptionStruct :=
  {| field := "height"; value_type := integer int32_t |}.
Definition fullscreen_struct : OptionStruct :=
  {| field := "fullscreen"; value_type := bool |}.
Definition username_struct : OptionStruct :=
  {| field := "username"; value_type := string |}.

Definition width_option : Base width_struct :=
  WithDescription
    (WithPattern (WithPattern (clp_Opt (integer int32_t) "int" "width") "-w")
       "--width")
    "Width of the window in pixels.".

Definition height_option : Base height_struct :=
  WithDescription
    (WithPattern (WithPattern (clp_Opt (integer int32_t) "int" "height") "-h")
       "--height")
    "Height of the window in pixels.".

Definition fullscreen_option : Base fullscreen_struct :=
  WithDescription (WithPattern (clp_Flag "fullscreen") "--fullscreen")
    "Start the application in fullscreen mode.".

Definition username_option : Base username_struct :=
  WithDefaultValue (U := string)
    (WithDescription
       (WithPattern (WithPattern (clp_Opt string "std::string" "username") "-n")
          "--name")
       "Username used to log in to the server.")
    "anonymous".

Definition window_cli
  : Compound [width_struct; height_struct; fullscreen_struct; username_struct] :=
  or_compound_option
    (or_compound_option (or_options width_option height_option)
       fullscreen_option)
    username_option.

Definition commands_cli :=
  @or_commands (CommandOf _) (CommandOf _)
    (MkCommand "open-window" (or_options width_option height_option))
    (MkCommand "fetch-url" username_option).

(* ================================================================== *)
(** ** Vocabulary for the layers, compounds and selectors as a whole *)

(** The predicates of the [WithCheck] layers of a leaf, innermost first. *)
Fixpoint checks {T : OptionStruct} (b : Base T) : list (value_type T -> bool) :=
  match b with
  | Option _ => []
  | WithCheck base validation_predicate _ =>
      (checks base ++ [validation_predicate])%list
  | WithImplicitValue base _ | WithDefaultValue base _
  | WithDescription base _ | WithPattern base _ | WithCustomParser base _
  | WithCustomHint base _ => checks base
  end.

(** [match(token)] has a value. *)
Definition matches {T : OptionStruct} (b : Base T) (token : string) : bool :=
  match match_ b token with
  | Some _ => true
  | None => false
  end.

(** Some option of the compound matches the token. *)
Fixpoint Compound_matches {Ts : list OptionStruct} (c : Compound Ts)
  (token : string) : bool :=
  match c with
  | CompoundNil => false
  | CompoundCons option options =>
      matches option token || Compound_matches options token
  end.

(** Every option of the compound is matched by at most one token of the
    list. *)
Fixpoint unambiguous {Ts : list OptionStruct} (c : Compound Ts)
  (args : list string) : Prop :=
  match c with
  | CompoundNil => True
  | CompoundCons option options =>
      List.length (filter (matches option) args) <= 1 /\
      unambiguous options args
  end.

(** The result struct of [Compound<A..., B...>] from those of
    [Compound<A...>] and [Compound<B...>]. *)
Fixpoint Compound_result_app (As Bs : list OptionStruct)
  : Compound_result As -> Compound_result Bs -> Compound_result (As ++ Bs) :=
  match As with
  | [] => fun _ rb => rb
  | A :: As' => fun ra rb => (fst ra, Compound_result_app As' Bs (snd ra) rb)
  end.

(** [o] is one of the options of the compound. *)
Inductive contains
  : forall Ts : list OptionStruct, Compound Ts ->
    forall T : OptionStruct, Base T -> Prop :=
| contains_here (T : OptionStruct) (Ts : list OptionStruct)
    (o : Base T) (os : Compound Ts) :
    contains (T :: Ts) (CompoundCons o os) T o
| contains_there (T0 : OptionStruct) (Ts : list OptionStruct)
    (o0 : Base T0) (os : Compound Ts) (T : OptionStruct) (o : Base T) :
    contains Ts os T o ->
    contains (T0 :: Ts) (CompoundCons o0 os) T o.

(** [b[p1][p2]...]: the patterns of the list attached in order. *)
Definition with_patterns {T : OptionStruct} (b : Base T) (ps : list string)
  : Base T :=
  fold_left with_pattern ps b.

(** The text before the description on the first line of the help text. *)
Definition help_head {T : OptionStruct} (b : Base T) : string :=
  ((patterns_to_string b ++ " <") ++ hint_text b) ++ ">".

(** The signature of [Help] as a command of a selector. *)
#[universes(polymorphic)] Definition HelpCommand : CommandSig :=
  MkCommandSig Help CommandType_Help.

(** Two layers attached one after the other. *)
Definition attach_both {T : OptionStruct} (d1 d2 : decorator T) (b : Base T)
  : option (Base T) :=
  match attach d1 b with
  | Some b1 => attach d2 b1
  | None => None
  end.

(** The alternatives of a variant with a first alternative. *)
#[universes(polymorphic)] Definition variant_case {R : Type} {Rs : list Type}
  (v : variant (R :: Rs)) : R + variant Rs :=
  match v in variant L
        return match L with
               | [] => unit
               | R0 :: Rs0 => (R0 + variant Rs0)%type
               end with
  | alternative_here r => inl r
  | alternative_there v' => inr v'
  end.

(** A result of [CommandSelector<A...>] as a result of
    [CommandSelector<A..., B...>]: the same alternative. *)
#[universes(polymorphic)] Fixpoint result_left (As Bs : list CommandSig)
  : CommandSelector_result As -> CommandSelector_result (As ++ Bs) :=
  match As with
  | [] => fun v =>
      match v in variant L
            return match L with
                   | [] => CommandSelector_result Bs
                   | _ :: _ => unit
                   end with
      | alternative_here _ => tt
      | alternative_there _ => tt
      end
  | A :: As' => fun v =>
      match variant_case v with
      | inl r =>
          @alternative_here (sig_result A) (map sig_result (As' ++ Bs)) r
      | inr v' =>
          @alternative_there (sig_result A) (map sig_result (As' ++ Bs))
            (result_left As' Bs v')
      end
  end.

(** A result of [CommandSelector<B...>] as a result of
    [CommandSelector<A..., B...>]: the alternative after those of [A...]. *)
#[universes(polymorphic)] Fixpoint result_right (As Bs : list CommandSig)
  : CommandSelector_result Bs -> CommandSelector_result (As ++ Bs) :=
  match As with
  | [] => fun v => v
  | A :: As' => fun v =>
      @alternative_there (sig_result A) (map sig_result (As' ++ Bs))
        (result_right As' Bs v)
  end.

(* ================================================================== *)
(** * Properties *)

(** ** Strings *)

Lemma prefix_app (p t : string) :
  String.prefix p t = true <-> exists rest, t = p ++ rest.
Proof.
  revert t. induction p as [|c p IH]; intros t; simpl.
  - destruct t; split; eauto.
  - destruct t as [|d t]; simpl.
    + split; [discriminate | intros [rest H]; discriminate].
    + destruct (ascii_dec c d) as [->|Hne].
      * rewrite IH. split; intros [rest H]; exists rest; congruence.
      * split; [discriminate | intros [rest H]; congruence].
Qed.

Lemma length_app (s1 s2 : string) :
  String.length (s1 ++ s2) = String.length s1 + String.length s2.
Proof. induction s1; simpl; congruence. Qed.

Lemma get_app_length (p rest : string) :
  String.get (String.length p) (p ++ rest) = String.get 0 rest.
Proof. induction p; simpl; auto. Qed.

Lemma substring_whole (s : string) :
  String.substring 0 (String.length s) s = s.
Proof. induction s; simpl; congruence. Qed.

Lemma substr_app (p : string) (c : ascii) (m : string) :
  substr (String.length p + 1) (p ++ String c m) = m.
Proof.
  unfold substr. induction p as [|d p IH]; simpl.
  - rewrite Nat.sub_0_r. apply substring_whole.
  - exact IH.
Qed.

Lemma app_assoc_string (s1 s2 s3 : string) :
  (s1 ++ s2) ++ s3 = s1 ++ (s2 ++ s3).
Proof. induction s1; simpl; congruence. Qed.

Lemma app_inv_head_string (p r1 r2 : string) : p ++ r1 = p ++ r2 -> r1 = r2.
Proof. induction p; simpl; intros H; [assumption | injection H; auto]. Qed.

(** ** [match] *)

Lemma match_pattern_accepts (pattern token matched : string) :
  match_pattern pattern token = Some matched <-> accepts pattern token matched.
Proof.
  unfold match_pattern, starts_with, accepts. split.
  - destruct (String.prefix pattern token) eqn:Hp; [|discriminate].
    apply prefix_app in Hp. destruct Hp as [rest ->].
    rewrite length_app, get_app_length.
    destruct (Nat.eqb_spec (String.length pattern + String.length rest)
                (String.length pattern)) as [Hlen|Hlen].
    + intros [= <-]. split; eauto.
    + destruct rest as [|c rest]; simpl; [discriminate|].
      destruct (Ascii.eqb_spec c "="%char) as [->|]; [|discriminate].
      rewrite substr_app. intros [= <-]. split; eauto.
  - intros [[rest ->] [[Hlen ->] | Heq]].
    + rewrite (proj2 (prefix_app pattern (pattern ++ rest))) by eauto.
      rewrite Hlen, Nat.eqb_refl. reflexivity.
    + apply app_inv_head_string in Heq. subst rest.
      rewrite (proj2 (prefix_app pattern _)) by eauto.
      rewrite length_app, get_app_length. simpl.
      destruct (Nat.eqb_spec (String.length pattern + S (String.length matched))
                  (String.length pattern)); [lia|].
      rewrite substr_app. reflexivity.
Qed.

Lemma match_pattern_rejects (pattern token : string) :
  match_pattern pattern token = None <->
  forall matched, ~ accepts pattern token matched.
Proof.
  split.
  - intros H matched Ha. apply match_pattern_accepts in Ha. congruence.
  - intros H. destruct (match_pattern pattern token) as [m|] eqn:E; auto.
    apply match_pattern_accepts in E. destruct (H m E).
Qed.

Lemma first_match_app (ps : list string) (p text : string) :
  first_match (ps ++ [p]) text =
  match first_match ps text with
  | Some matched => Some matched
  | None => match_pattern p text
  end.
Proof.
  induction ps as [|q ps IH]; simpl.
  - destruct (match_pattern p text); reflexivity.
  - destruct (match_pattern q text); auto.
Qed.

Lemma first_match_accepting (ps : list string) (token matched : string) :
  first_match ps token = Some matched <-> first_accepting ps token matched.
Proof.
  unfold first_accepting. induction ps as [|p ps IH]; simpl.
  - split; [discriminate|].
    intros (before & q & after & H & _). destruct before; discriminate.
  - destruct (match_pattern p token) as [m|] eqn:E.
    + split.
      * intros [= <-]. exists [], p, ps.
        split; [reflexivity | split; [intros q m0 [] |]].
        now apply match_pattern_accepts.
      * intros (before & q & after & H & Hno & Hacc).
        destruct before as [|q0 before]; simpl in H; injection H as <- H.
        -- apply match_pattern_accepts in Hacc. congruence.
        -- apply match_pattern_accepts in E.
           destruct (Hno p m (or_introl eq_refl) E).
    + rewrite IH. split.
      * intros (before & q & after & -> & Hno & Hacc).
        exists (p :: before), q, after.
        split; [reflexivity | split; [|assumption]].
        intros q0 m0 [<-|Hin]; [|eauto].
        now apply match_pattern_rejects.
      * intros (before & q & after & H & Hno & Hacc).
        destruct before as [|q0 before]; simpl in H; injection H as <- H.
        -- apply match_pattern_accepts in Hacc. congruence.
        -- exists before, q, after.
           split; [assumption | split; [|assumption]].
           intros q1 m1 Hin. apply Hno. now right.
Qed.

Lemma first_match_none (ps : list string) (token : string) :
  first_match ps token = None <->
  forall p matched, In p ps -> ~ accepts p token matched.
Proof.
  induction ps as [|p ps IH]; simpl.
  - split; [intros _ p m [] | reflexivity].
  - destruct (match_pattern p token) as [m|] eqn:E.
    + split; [discriminate|]. intros H. exfalso.
      apply (H p m (or_introl eq_refl)). now apply match_pattern_accepts.
    + rewrite IH. split.
      * intros H q m [<-|Hin]; [now apply match_pattern_rejects | eauto].
      * intros H q m Hin. apply H. now right.
Qed.

Lemma no_pattern_no_match (T : OptionStruct) (b : Base T) (text : string) :
  Pattern b = false -> match_ b text = None.
Proof. induction b; simpl; auto; discriminate. Qed.

Lemma match_first_match (T : OptionStruct) (b : Base T) (text : string) :
  match_ b text = first_match (patterns b) text.
Proof.
  induction b; simpl; auto.
  rewrite first_match_app, <- IHb.
  destruct (Pattern b) eqn:E; [reflexivity|].
  now rewrite (no_pattern_no_match T b text E).
Qed.

(** C3: [match] on a token succeeds with a matched text exactly when the
    first pattern, in the order the patterns were attached, that accepts the
    token accepts it with that text: the token starts with the pattern and
    is either exactly the pattern (empty matched text) or continues with
    ['='] (the rest is the matched text).  It fails exactly when no pattern
    of the leaf accepts the token. *)
Theorem match_first_accepting_pattern (T : OptionStruct) (b : Base T)
  (token : string) :
  (forall matched,
     match_ b token = Some matched <->
     first_accepting (patterns b) token matched) /\
  (match_ b token = None <->
   forall p matched, In p (patterns b) -> ~ accepts p token matched).
Proof.
  rewrite match_first_match. split.
  - intros matched. apply first_match_accepting.
  - apply first_match_none.
Qed.

(** ** [OptionInterface::parse] *)

Lemma parse_skips_absent (T : OptionStruct) (b : Base T)
  (before rest : list string) :
  absent b before ->
  OptionInterface_parse b (before ++ rest) = OptionInterface_parse b rest.
Proof.
  unfold absent. induction 1 as [|token before Hnone _ IH]; simpl.
  - reflexivity.
  - now rewrite Hnone.
Qed.

Lemma parse_absent (T : OptionStruct) (b : Base T) (args : list string) :
  absent b args ->
  OptionInterface_parse b args =
  match default_value_of b with
  | Some d => Some (make_parse_result d)
  | None => None
  end.
Proof.
  intros H. rewrite <- (app_nil_r args). now rewrite parse_skips_absent.
Qed.

Lemma parse_first_matching (T : OptionStruct) (b : Base T)
  (args : list string) (token matched : string) :
  first_matching b args token matched ->
  OptionInterface_parse b args = parse_matched b matched.
Proof.
  intros (before & after & -> & Habs & Hm).
  rewrite parse_skips_absent by assumption. simpl. now rewrite Hm.
Qed.

Lemma parse_matched_implicit (T : OptionStruct) (b : Base T)
  (i : Stored (value_type T)) :
  implicit_value_of b = Some i ->
  parse_matched b "" = Some (make_parse_result i).
Proof. unfold parse_matched. now intros ->. Qed.

(** C4: a leaf with implicit value [i], on an argument list whose first
    matching token gives an empty matched text, returns [i].  The converter
    and the validation check are not consulted: the result is the same
    under any further check, custom parser or default value, whatever they
    answer. *)
Theorem implicit_value_on_empty_match (T : OptionStruct) (b : Base T)
  (i : Stored (value_type T)) (args : list string) (token : string) :
  implicit_value_of b = Some i ->
  first_matching b args token "" ->
  OptionInterface_parse b args = Some (make_parse_result i) /\
  (forall predicate message,
     OptionInterface_parse (check b predicate message) args
     = Some (make_parse_result i)) /\
  (forall parser_function,
     OptionInterface_parse (custom_parser b parser_function) args
     = Some (make_parse_result i)) /\
  (forall (U : Type) (conv : explicitly_convertible_to U (value_type T))
          (printable : TraitPrintable U) (d : U),
     OptionInterface_parse (WithDefaultValue b d) args
     = Some (make_parse_result i)).
Proof.
  intros Hi Hfirst.
  assert (Hany : forall b' : Base T,
             implicit_value_of b' = Some i ->
             (forall text, match_ b' text = match_ b text) ->
             OptionInterface_parse b' args = Some (make_parse_result i)).
  { intros b' Hi' Hsame.
    destruct Hfirst as (before & after & -> & Habs & Hm).
    rewrite (parse_first_matching T b' _ token "").
    - now apply parse_matched_implicit.
    - exists before, after. split; [reflexivity | split].
      + unfold absent in *. eapply Forall_impl; [|exact Habs].
        intros a Ha. simpl in Ha. now rewrite Hsame.
      + now rewrite Hsame. }
  split; [apply Hany; auto | split; [|split]]; intros; apply Hany; auto.
Qed.

Lemma implicit_value_on_empty_match_witness :
  let b := WithPattern (clp_Flag "fullscreen") "--fullscreen" in
  let args := ["-w=1920"; "--fullscreen"; "--fullscreen=false"] in
  option_map _get (OptionInterface_parse b args) = Some true /\
  option_map _get
    (OptionInterface_parse (check b (fun _ => false) "never") args)
  = Some true.
Proof.
  intros b args.
  assert (Hi : implicit_value_of b = Some (@stored bool _ true)) by reflexivity.
  assert (Hfirst : first_matching b args "--fullscreen" "").
  { exists ["-w=1920"], ["--fullscreen=false"].
    split; [reflexivity | split; [|reflexivity]].
    constructor; [reflexivity | constructor]. }
  destruct (implicit_value_on_empty_match _ b (@stored bool _ true) args "--fullscreen"
              Hi Hfirst) as (H1 & H2 & _).
  split; [rewrite H1 | rewrite (H2 (fun _ => false) "never")]; reflexivity.
Defined.

(** C5, as amended: a leaf with default value [d] returns [d] when no
    token of the argument list matches; and when the first token that
    matches gives a matched text whose conversion fails, the parse fails
    although a default exists, provided the matched text is non-empty or the
    leaf has no implicit value. *)
Theorem default_applies_to_absence (T : OptionStruct) (b : Base T)
  (d : Stored (value_type T)) (args : list string) :
  default_value_of b = Some d ->
  (absent b args -> OptionInterface_parse b args = Some (make_parse_result d)) /\
  (forall token text,
     first_matching b args token text ->
     text <> "" \/ implicit_value_of b = None ->
     parse_impl b text = None ->
     OptionInterface_parse b args = None).
Proof.
  intros Hd. split.
  - intros Habs. rewrite parse_absent by assumption. now rewrite Hd.
  - intros token text Hfirst Himp Hconv.
    rewrite (parse_first_matching T b args token text Hfirst).
    unfold parse_matched, convert_checked. rewrite Hconv.
    destruct (implicit_value_of b) as [i|].
    + destruct text; simpl.
      * destruct Himp as [Hne|Hnone]; [now destruct Hne | discriminate].
      * now destruct (HasValidationCheck b).
    + now destruct (HasValidationCheck b).
Qed.

Lemma default_applies_to_absence_witness :
  let b :=
    WithDefaultValue (U := integer int32_t)
      (WithPattern (clp_Opt (integer int32_t) "int" "width") "-w")
      (MkInteger 7) in
  option_map _get (OptionInterface_parse b ["-h=3"]) = Some (MkInteger 7) /\
  OptionInterface_parse b ["-h=3"; "-w=abc"] = None.
Proof.
  intros b.
  assert (Hd : default_value_of b = Some (@stored (integer int32_t) _ (MkInteger 7)))
    by reflexivity.
  split.
  - rewrite (proj1 (default_applies_to_absence _ b _ ["-h=3"] Hd)).
    + reflexivity.
    + constructor; [reflexivity | constructor].
  - apply (proj2 (default_applies_to_absence _ b _ ["-h=3"; "-w=abc"] Hd)
             "-w=abc" "abc").
    + exists ["-h=3"], []. split; [reflexivity | split; [|reflexivity]].
      constructor; [reflexivity | constructor].
    + left. discriminate.
    + reflexivity.
Defined.

(** C5 as stated fails: a token [pattern=text] whose text does not convert
    does not make the parse fail when an earlier token matches and
    converts. *)
Lemma default_claim_counterexample :
  ~ (forall (T : OptionStruct) (b : Base T) (d : Stored (value_type T))
            (args : list string) (p text : string),
       default_value_of b = Some d ->
       In p (patterns b) ->
       In (p ++ String "="%char text) args ->
       match_ b (p ++ String "="%char text) = Some text ->
       parse_impl b text = None ->
       OptionInterface_parse b args = None).
Proof.
  intros H.
  specialize (H _
    (WithDefaultValue (U := integer int32_t)
       (WithPattern (clp_Opt (integer int32_t) "int" "width") "-w")
       (MkInteger 7))
    (@stored (integer int32_t) _ (MkInteger 7)) ["-w=5"; "-w=abc"] "-w" "abc"
    eq_refl (or_introl eq_refl) (or_intror (or_introl eq_refl))
    eq_refl eq_refl).
  discriminate H.
Qed.

(** ** [Compound::parse] *)

Lemma deref_all_engaged (Ts : list OptionStruct) (opts : Compound_opts_type Ts) :
  if all_engaged Ts opts
  then exists r, deref_all Ts opts = Some r
  else deref_all Ts opts = None.
Proof.
  induction Ts as [|T Ts IH]; simpl.
  - now exists tt.
  - destruct opts as [[v|] opts]; simpl; [|reflexivity].
    specialize (IH opts). destruct (all_engaged Ts opts).
    + destruct IH as [r ->]. now exists (v, r).
    + now rewrite IH.
Qed.

Lemma Compound_parse_deref (Ts : list OptionStruct) (c : Compound Ts)
  (args : list string) :
  Compound_parse c args = deref_all Ts (Compound_opts c args).
Proof.
  unfold Compound_parse.
  pose proof (deref_all_engaged Ts (Compound_opts c args)) as H.
  destruct (all_engaged Ts (Compound_opts c args)); simpl; auto.
Qed.

Lemma Compound_parse_cons (T : OptionStruct) (Ts : list OptionStruct)
  (o : Base T) (os : Compound Ts) (args : list string) :
  Compound_parse (CompoundCons o os) args =
  match OptionInterface_parse o args, Compound_parse os args with
  | Some v, Some r => Some (v, r)
  | _, _ => None
  end.
Proof. rewrite !Compound_parse_deref. reflexivity. Qed.

Lemma Compound_opts_pack (Ts : list OptionStruct) (c : Compound Ts)
  (args : list string) :
  pack_of args Ts c (Compound_opts c args).
Proof. induction c; simpl; constructor; assumption. Qed.

Lemma Compound_parse_some (Ts : list OptionStruct) (c : Compound Ts)
  (args : list string) (r : Compound_result Ts) :
  Compound_parse c args = Some r <-> all_succeeded args Ts c r.
Proof.
  split.
  - revert r. induction c as [|T Ts o os IH]; intros r.
    + destruct r. constructor.
    + rewrite Compound_parse_cons. destruct r as [v r].
      destruct (OptionInterface_parse o args) as [v'|] eqn:Ho; [|discriminate].
      destruct (Compound_parse os args) as [r'|]; [|discriminate].
      intros [= <- <-]. constructor; auto.
  - induction 1 as [|T Ts o os v r Ho _ IH].
    + reflexivity.
    + now rewrite Compound_parse_cons, Ho, IH.
Qed.

Lemma Compound_parse_none (Ts : list OptionStruct) (c : Compound Ts)
  (args : list string) :
  Compound_parse c args = None <-> some_failed args Ts c.
Proof.
  split.
  - induction c as [|T Ts o os IH].
    + discriminate.
    + rewrite Compound_parse_cons.
      destruct (OptionInterface_parse o args) as [v|] eqn:Ho.
      * destruct (Compound_parse os args); [discriminate|].
        intros _. apply some_failed_there. now apply IH.
      * intros _. now apply some_failed_here.
  - induction 1 as [T Ts o os Ho | T Ts o os _ IH];
      rewrite Compound_parse_cons.
    + now rewrite Ho.
    + rewrite IH. now destruct (OptionInterface_parse o args).
Qed.

(** C1: [Compound::parse] first takes the result of every option on the
    full argument list, whatever the other options return; it succeeds
    exactly when every option succeeded, and the result struct then holds
    every option's result; it fails exactly when some option fails. *)
Theorem Compound_parse_all_or_nothing (Ts : list OptionStruct)
  (c : Compound Ts) (args : list string) :
  pack_of args Ts c (Compound_opts c args) /\
  (forall r, Compound_parse c args = Some r <-> all_succeeded args Ts c r) /\
  (Compound_parse c args = None <-> some_failed args Ts c).
Proof.
  split; [apply Compound_opts_pack | split].
  - intros r. apply Compound_parse_some.
  - apply Compound_parse_none.
Qed.

(** C7: two leaves with different member names that each parse the
    argument list, to [v1] and [v2], parse it as a compound in either order
    of composition, and in both results the member of the first leaf is
    [v1] and the member of the second is [v2]. *)
Theorem Compound_of_two_leaves_order_independent (A B : OptionStruct)
  (a : Base A) (b : Base B) (args : list string)
  (v1 : parse_result_type A) (v2 : parse_result_type B) :
  field A <> field B ->
  OptionInterface_parse a args = Some v1 ->
  OptionInterface_parse b args = Some v2 ->
  exists r r',
    Compound_parse (or_options a b) args = Some r /\
    Compound_parse (or_options b a) args = Some r' /\
    Compound_field (field A) [A; B] r = Some (member v1) /\
    Compound_field (field B) [A; B] r = Some (member v2) /\
    Compound_field (field A) [B; A] r' = Some (member v1) /\
    Compound_field (field B) [B; A] r' = Some (member v2).
Proof.
  intros Hne Ha Hb.
  exists (v1, (v2, tt)), (v2, (v1, tt)).
  unfold or_options. rewrite !Compound_parse_cons, Ha, Hb.
  assert (Hab : String.eqb (field A) (field B) = false)
    by now apply String.eqb_neq.
  assert (Hba : String.eqb (field B) (field A) = false)
    by (apply String.eqb_neq; congruence).
  simpl. rewrite !String.eqb_refl, Hab, Hba. repeat split; reflexivity.
Qed.

Lemma Compound_of_two_leaves_witness :
  let w := WithPattern (clp_Opt (integer int32_t) "int" "width") "-w" in
  let h := WithPattern (clp_Opt (integer int32_t) "int" "height") "-h" in
  let args := ["-h=1080"; "-w=1920"] in
  exists r r',
    Compound_parse (or_options w h) args = Some r /\
    Compound_parse (or_options h w) args = Some r' /\
    Compound_field "width" _ r = Some (typed (integer int32_t) (MkInteger 1920)) /\
    Compound_field "height" _ r = Some (typed (integer int32_t) (MkInteger 1080)) /\
    Compound_field "width" _ r' = Some (typed (integer int32_t) (MkInteger 1920)) /\
    Compound_field "height" _ r' = Some (typed (integer int32_t) (MkInteger 1080)).
Proof.
  intros w h args.
  assert (Hne : "width" <> "height") by discriminate.
  exact (Compound_of_two_leaves_order_independent
           {| field := "width"; value_type := integer int32_t |}
           {| field := "height"; value_type := integer int32_t |}
           w h args
           (@ParseResult {| field := "width"; value_type := integer int32_t |}
              (MkInteger 1920))
           (@ParseResult {| field := "height"; value_type := integer int32_t |}
              (MkInteger 1080))
           Hne eq_refl eq_refl).
Defined.

(** ** [CommandSelector::parse] *)

Lemma selected_command_parses (token : string) (Cs : list CommandSig)
  (sel : CommandSelector Cs) (C : CommandSig) (c : command_type C)
  (wrap : sig_result C -> CommandSelector_result Cs) (rest : list string) :
  selects token Cs sel C c wrap ->
  CommandSelector_parse sel (token :: rest)
  = option_map wrap (sig_parse C c (token :: rest)).
Proof.
  induction 1 as [C Cs c sel Hm | C0 Cs c0 sel C c wrap Hm _ IH];
    simpl in *; rewrite Hm.
  - now destruct (sig_parse C c (token :: rest)).
  - rewrite IH. now destruct (sig_parse C c (token :: rest)).
Qed.

Lemma unmatched_token_fails (token : string) (Cs : list CommandSig)
  (sel : CommandSelector Cs) (rest : list string) :
  none_matches token Cs sel ->
  CommandSelector_parse sel (token :: rest) = None.
Proof.
  induction 1 as [|C Cs c sel Hm _ IH]; simpl in *.
  - reflexivity.
  - now rewrite Hm, IH.
Qed.

Lemma selects_or_none (token : string) (Cs : list CommandSig)
  (sel : CommandSelector Cs) :
  none_matches token Cs sel \/
  exists C c wrap, selects token Cs sel C c wrap.
Proof.
  induction sel as [|C Cs c sel IH].
  - left. constructor.
  - destruct (sig_match C c token) eqn:Hm.
    + right. eexists C, c, _. now apply selects_here.
    + destruct IH as [Hnone | (C' & c' & wrap & Hsel)].
      * left. now constructor.
      * right. eexists C', c', _. apply selects_there; eassumption.
Qed.

(** C2: a selector fails on the empty list.  On a list with first token
    [token], the first command in template order that matches the token has
    its parse run and its result put into its alternative of the variant;
    when no command matches, the selector fails; one of the two is always
    the case.  A [Command] matches exactly its name and parses the list
    after the first token with its sub-parser.  Of two commands with the
    same name, the first one is selected. *)
Theorem CommandSelector_first_match :
  (forall (Cs : list CommandSig) (sel : CommandSelector Cs),
     CommandSelector_parse sel [] = None /\
     (forall token rest C c wrap,
        selects token Cs sel C c wrap ->
        CommandSelector_parse sel (token :: rest)
        = option_map wrap (sig_parse C c (token :: rest))) /\
     (forall token rest,
        none_matches token Cs sel ->
        CommandSelector_parse sel (token :: rest) = None) /\
     (forall token,
        none_matches token Cs sel \/
        exists C c wrap, selects token Cs sel C c wrap)) /\
  (forall (P : Type) (HP : Parser P) (c : Command P) (token : string)
          (rest : list string),
     (sig_match (CommandOf P) c token = true <-> token = name c) /\
     sig_parse (CommandOf P) c (token :: rest) = Parser_parse (parser c) rest) /\
  (forall (P1 P2 : Type) (HP1 : Parser P1) (HP2 : Parser P2)
          (c1 : Command P1) (c2 : Command P2) (rest : list string),
     name c1 = name c2 ->
     CommandSelector_parse
       (@or_commands (CommandOf P1) (CommandOf P2) c1 c2) (name c2 :: rest)
     = option_map
         (@alternative_here (Parser_result P1) [Parser_result P2])
         (Parser_parse (parser c1) rest)).
Proof.
  split; [|split].
  - intros Cs sel. split; [reflexivity | split; [|split]].
    + intros token rest C c wrap. apply selected_command_parses.
    + intros token rest. apply unmatched_token_fails.
    + intros token. apply selects_or_none.
  - intros P HP c token rest. split; [|reflexivity].
    apply String.eqb_eq.
  - intros P1 P2 HP1 HP2 c1 c2 rest Hname.
    unfold or_commands.
    rewrite (selected_command_parses (name c2)
               [CommandOf P1; CommandOf P2] _ (CommandOf P1) c1
               (@alternative_here (Parser_result P1) [Parser_result P2]) rest).
    + reflexivity.
    + apply (selects_here (name c2) (CommandOf P1) [CommandOf P2]).
      unfold sig_match, CommandOf. simpl. unfold Command_match.
      rewrite Hname. apply String.eqb_refl.
Qed.

Lemma CommandSelector_first_match_witness :
  let w := WithPattern (clp_Opt (integer int32_t) "int" "width") "-w" in
  let n := WithPattern (clp_Opt string "std::string" "username") "-n" in
  let sel := @or_commands (CommandOf _) (CommandOf _)
               (MkCommand "run" w) (MkCommand "run" n) in
  CommandSelector_parse sel ["run"; "-n=dodo"; "-w=3"]
  = Some (alternative_here (@ParseResult width_struct (MkInteger 3))) /\
  CommandSelector_parse sel ["stop"; "-w=3"] = None.
Proof.
  intros w n sel.
  destruct CommandSelector_first_match as (Hsel & _ & Htie).
  split.
  - exact (Htie _ _ _ _ (MkCommand "run" w) (MkCommand "run" n)
             ["-n=dodo"; "-w=3"] eq_refl).
  - destruct (Hsel _ sel) as (_ & _ & Hnone & _).
    apply Hnone. repeat constructor.
Defined.

(** ** [CommandWithSharedOptions::parse] *)

Lemma shared_and_selector_both (SharedOptions : Type)
  (HP : Parser SharedOptions) (Cs : list CommandSig)
  (w : CommandWithSharedOptions SharedOptions Cs) (args : list string) :
  (forall r,
     CommandWithSharedOptions_parse w args = Some r <->
     Parser_parse (shared_options w) args = Some (shared_arguments r) /\
     CommandSelector_parse (commands w) args = Some (command r)) /\
  (CommandWithSharedOptions_parse w args = None <->
   Parser_parse (shared_options w) args = None \/
   CommandSelector_parse (commands w) args = None).
Proof.
  unfold CommandWithSharedOptions_parse.
  destruct (Parser_parse (shared_options w) args) as [s|];
    destruct (CommandSelector_parse (commands w) args) as [c|];
    (split; [intros [s' c']; simpl|]); split;
    try discriminate; try tauto; try (intros [H1 H2]; discriminate);
    try (intros [H|H]; discriminate).
  - intros [= <- <-]. auto.
  - intros [[= <-] [= <-]]. reflexivity.
Qed.

(** ** [OptionInterface::to_string] *)

Lemma no_newline_app (s1 s2 : string) :
  no_newline (s1 ++ s2) = no_newline s1 && no_newline s2.
Proof.
  induction s1 as [|c s1 IH]; simpl; [reflexivity|].
  now rewrite IH, andb_assoc.
Qed.

Lemma no_newline_spaces (n : nat) : no_newline (spaces n) = true.
Proof. induction n; simpl; auto. Qed.

Lemma lines_app (s1 s2 : string) :
  no_newline s1 = true ->
  lines (s1 ++ String newline_char s2) = s1 :: lines s2.
Proof.
  induction s1 as [|c s1 IH]; simpl.
  - reflexivity.
  - intros H. apply andb_prop in H. destruct H as [Hc Hs].
    apply negb_true_iff in Hc. now rewrite Hc, (IH Hs).
Qed.

Lemma help_value_text_no_newline (label shown : string) :
  no_newline label = true -> no_newline shown = true ->
  no_newline (help_value_text label shown) = true.
Proof.
  intros Hl Hs. unfold help_value_text.
  now rewrite !no_newline_app, no_newline_spaces, Hl, Hs.
Qed.

Lemma help_text_layout (T : OptionStruct) (b : Base T) (description : string) :
  description_of b = Some description ->
  OptionInterface_to_string b =
  Some (help_first_line b description
        ++ match default_value_of b with
           | Some d => help_value_line "By default: " (stored_to_string d)
           | None => ""
           end
        ++ match implicit_value_of b with
           | Some i => help_value_line "Implicitly: " (stored_to_string i)
           | None => ""
           end
        ++ newline).
Proof.
  intros Hd.
  unfold OptionInterface_to_string, help_first_line, help_value_line,
    help_value_text.
  rewrite Hd.
  destruct (default_value_of b) as [d|]; destruct (implicit_value_of b) as [i|];
    rewrite ?app_assoc_string; reflexivity.
Qed.

(** C8: the help text of a leaf with a description is its first line, then
    the line "By default: " with [to_string] of the stored default value
    when the leaf has one, then the line "Implicitly: " with [to_string] of
    the stored implicit value when the leaf has one, then a line break.
    When the first line and the displayed values have no line break of
    their own, the lines read back from the text are that first line and,
    after the label at the description column, exactly those [to_string]
    values. *)
Theorem help_text_displays_to_string (T : OptionStruct) (b : Base T)
  (description : string) :
  description_of b = Some description ->
  exists text,
    OptionInterface_to_string b = Some text /\
    text =
      help_first_line b description
      ++ match default_value_of b with
         | Some d => help_value_line "By default: " (stored_to_string d)
         | None => ""
         end
      ++ match implicit_value_of b with
         | Some i => help_value_line "Implicitly: " (stored_to_string i)
         | None => ""
         end
      ++ newline /\
    (no_newline (help_first_line b description) = true ->
     (forall d, default_value_of b = Some d ->
                no_newline (stored_to_string d) = true) ->
     (forall i, implicit_value_of b = Some i ->
                no_newline (stored_to_string i) = true) ->
     lines text =
       (help_first_line b description
        :: help_value_lines "By default: " (default_value_of b)
        ++ help_value_lines "Implicitly: " (implicit_value_of b)
        ++ [""])%list).
Proof.
  intros Hd. eexists. split; [apply help_text_layout; exact Hd|].
  split; [reflexivity|].
  intros Hfirst Hdef Himp.
  destruct (default_value_of b) as [d|]; destruct (implicit_value_of b) as [i|];
    unfold help_value_line, newline; cbn [append help_value_lines app];
    rewrite ?lines_app
      by first [ exact Hfirst
               | apply help_value_text_no_newline; [reflexivity | auto] ];
    reflexivity.
Qed.

Lemma help_text_displays_to_string_witness :
  let b :=
    WithDescription (WithPattern (clp_Flag "fullscreen") "--fullscreen")
      "Start the application in fullscreen mode." in
  exists text,
    OptionInterface_to_string b = Some text /\
    lines text =
      [ "--fullscreen <bool>                     Start the application in fullscreen mode.";
        spaces 40 ++ "By default: " ++ to_string false;
        spaces 40 ++ "Implicitly: " ++ to_string true;
        "" ].
Proof.
  intros b.
  destruct (help_text_displays_to_string _ b
              "Start the application in fullscreen mode." eq_refl)
    as (text & Htext & _ & Hlines).
  exists text. split; [exact Htext|].
  rewrite Hlines.
  - reflexivity.
  - reflexivity.
  - intros d [= <-]. reflexivity.
  - intros i [= <-]. reflexivity.
Defined.

(** ** Attaching a capability twice *)

Lemma has_description_capability (T : OptionStruct) (b : Base T) :
  has_capability cap_description b = HasDescription b.
Proof.
  unfold HasDescription. induction b; simpl; auto.
Qed.

Lemma has_default_capability (T : OptionStruct) (b : Base T) :
  has_capability cap_default b = HasDefaultValue b.
Proof.
  unfold HasDefaultValue. induction b; simpl; auto.
Qed.

Lemma has_implicit_capability (T : OptionStruct) (b : Base T) :
  has_capability cap_implicit b = HasImplicitValue b.
Proof.
  unfold HasImplicitValue. induction b; simpl; auto.
Qed.

Lemma has_validator_capability (T : OptionStruct) (b : Base T) :
  has_capability cap_validator b = HasValidationCheck b.
Proof. induction b; simpl; auto. Qed.

(** C9, as amended: a description, a default value or an implicit value
    attached to a leaf that already has one is rejected when the leaf is
    composed.  A pattern or a validation check can be attached again: the
    new pattern comes after those already attached, and the new check is
    asked after, and together with, those already attached. *)
Theorem second_attachment (T : OptionStruct) (b : Base T) (d : decorator T) :
  has_capability (capability_of d) b = true ->
  match d with
  | add_description _ | add_default _ | add_implicit _ => attach d b = None
  | add_pattern pattern =>
      exists b', attach d b = Some b' /\
                 patterns b' = (patterns b ++ [pattern])%list
  | add_check predicate _ =>
      exists b', attach d b = Some b' /\
                 forall t, validate b' t = validate b t && predicate (_get t)
  | add_custom_parser _ | add_hint _ => True
  end.
Proof.
  destruct d; simpl; intros H; auto.
  - eexists. split; reflexivity.
  - unfold describe. now rewrite <- has_description_capability, H.
  - unfold default_to. now rewrite <- has_default_capability, H.
  - unfold implicitly. now rewrite <- has_implicit_capability, H.
  - eexists. split; [reflexivity|]. intros t. simpl.
    rewrite <- has_validator_capability, H. simpl.
    now destruct (validate b t).
Qed.

Lemma second_attachment_witness :
  let T := {| field := "width"; value_type := integer int32_t |} in
  let b : Base T :=
    WithDefaultValue (U := integer int32_t)
      (WithPattern (clp_Opt (integer int32_t) "int" "width") "-w")
      (MkInteger 7) in
  let again : decorator T :=
    @add_default T (@stored (integer int32_t) _ (MkInteger 8)) in
  attach again b = None /\
  exists b', attach (add_pattern "--width") b = Some b' /\
             patterns b' = ["-w"; "--width"].
Proof.
  intros T b again. split.
  - exact (second_attachment T b again eq_refl).
  - exact (second_attachment T b (add_pattern "--width") eq_refl).
Defined.

(** C9 as stated fails: a second pattern is attached to a leaf that already
    has one. *)
Lemma second_attachment_claim_counterexample :
  ~ (forall (T : OptionStruct) (b : Base T) (d : decorator T),
       has_capability (capability_of d) b = true -> attach d b = None).
Proof.
  intros H.
  specialize (H _ (WithPattern (clp_Opt (integer int32_t) "int" "width") "-w")
                (add_pattern "--width") eq_refl).
  discriminate H.
Qed.

(** ** [charconv_to_string_parse_traits::parse] *)

Lemma all_digits_app (s1 s2 : string) :
  all_digits (s1 ++ s2) = all_digits s1 && all_digits s2.
Proof.
  induction s1 as [|c s1 IH]; simpl; [reflexivity|].
  now rewrite IH, andb_assoc.
Qed.

Lemma scan_all_digits (s : string) (acc : Z) :
  all_digits s = true ->
  scan_digits s acc
  = (String.length s,
     (acc * 10 ^ Z.of_nat (String.length s) + decimal_value s)%Z).
Proof.
  revert acc. induction s as [|c s IH]; intros acc; simpl.
  - intros _. f_equal. lia.
  - intros H. apply andb_prop in H. destruct H as [Hc Hs].
    rewrite Hc, (IH _ Hs). f_equal.
    change (Z.pow_pos 10 (Pos.of_succ_nat (String.length s)))
      with (10 ^ Z.of_nat (S (String.length s)))%Z.
    rewrite Nat2Z.inj_succ, Z.pow_succ_r by lia. ring.
Qed.

Lemma scan_digits_count (s : string) (acc : Z) :
  fst (scan_digits s acc) <= String.length s /\
  (fst (scan_digits s acc) = String.length s -> all_digits s = true).
Proof.
  revert acc. induction s as [|c s IH]; intros acc; simpl.
  - auto.
  - destruct (is_digit c); simpl.
    + specialize (IH (acc * 10 + digit_value c)%Z).
      destruct (scan_digits s (acc * 10 + digit_value c)%Z) as [n v].
      simpl in *. destruct IH as [Hle Hall]. split; [lia|].
      intros [= H]. auto.
    + split; [lia | discriminate].
Qed.

Lemma in_range_bounds (it : IntType) (x : Z) :
  in_range it x = true <-> (int_min it <= x <= int_max it)%Z.
Proof.
  unfold in_range. rewrite andb_true_iff, !Z.leb_le. reflexivity.
Qed.

Lemma from_chars_digits_whole (it : IntType) (negative : bool)
  (body : string) (x : Z) :
  from_chars_digits it negative body
  = (MkFromCharsResult ((if negative then 1 else 0) + String.length body)
       errc_none, Some x)
  <->
  body <> "" /\ all_digits body = true /\
  x = (if negative then - decimal_value body else decimal_value body)%Z /\
  in_range it x = true.
Proof.
  unfold from_chars_digits. split.
  - pose proof (scan_digits_count body 0%Z) as [_ Hall].
    destruct (scan_digits body 0%Z) as [n v] eqn:Hscan. simpl in Hall.
    destruct n as [|n]; [discriminate|].
    destruct (in_range it (if negative then (- v)%Z else v)) eqn:Hr;
      [|discriminate].
    intros [= Hlen Hx].
    assert (Hn : S n = String.length body) by lia.
    specialize (Hall Hn).
    rewrite (scan_all_digits body 0%Z Hall) in Hscan.
    injection Hscan as _ Hv. simpl in Hv.
    split; [intros ->; discriminate | split; [assumption | split]].
    + subst x v. reflexivity.
    + now subst x.
  - intros (Hne & Hall & -> & Hr).
    rewrite (scan_all_digits body 0%Z Hall). simpl.
    destruct body as [|c body]; [now destruct Hne|]. simpl String.length.
    cbv zeta. rewrite Hr. reflexivity.
Qed.

Lemma charconv_parse_some (it : IntType) (text : string) (x : Z) :
  charconv_parse it text = Some (MkInteger x) <->
  from_chars it text
  = (MkFromCharsResult (String.length text) errc_none, Some x).
Proof.
  unfold charconv_parse.
  destruct (from_chars it text) as [[p e] [v|]]; simpl;
    destruct e; simpl;
    destruct (Nat.eqb_spec p (String.length text)); simpl;
    split; intros H; try discriminate; try congruence.
Qed.

Lemma from_chars_none_stores (it : IntType) (text : string) :
  ec (fst (from_chars it text)) = errc_none ->
  exists x, snd (from_chars it text) = Some x.
Proof.
  assert (H : forall negative body,
             ec (fst (from_chars_digits it negative body)) = errc_none ->
             exists x, snd (from_chars_digits it negative body) = Some x).
  { intros negative body. unfold from_chars_digits.
    destruct (scan_digits body 0%Z) as [[|n] v]; simpl; [discriminate|].
    destruct (in_range it (if negative then (- v)%Z else v)); simpl;
      [eauto | discriminate]. }
  unfold from_chars. destruct text as [|c rest]; [apply H|].
  destruct (Ascii.eqb c "-" && is_signed it); apply H.
Qed.

Lemma digit_is_not_minus (c : ascii) :
  is_digit c = true -> Ascii.eqb c "-" = false.
Proof.
  intros H. destruct (Ascii.eqb_spec c "-"%char) as [->|]; [|reflexivity].
  discriminate H.
Qed.

Lemma charconv_parse_numeral (it : IntType) (text : string) (x : Z) :
  charconv_parse it text = Some (MkInteger x) <-> numeral it text x.
Proof.
  rewrite charconv_parse_some. unfold from_chars, numeral. split.
  - destruct text as [|c rest].
    + discriminate.
    + destruct (Ascii.eqb c "-" && is_signed it) eqn:E.
      * apply andb_prop in E. destruct E as [Hc Hs].
        apply Ascii.eqb_eq in Hc. subst c.
        change (String.length (String "-" rest))
          with ((if true then 1 else 0) + String.length rest).
        rewrite from_chars_digits_whole.
        intros (Hne & Hall & Hx & Hr). exists rest.
        split; [assumption | split; [assumption | split]].
        -- right. auto.
        -- now apply in_range_bounds.
      * change (String.length (String c rest))
          with ((if false then 1 else 0) + String.length (String c rest)).
        rewrite from_chars_digits_whole.
        intros (Hne & Hall & Hx & Hr). exists (String c rest).
        split; [assumption | split; [assumption | split]].
        -- left. auto.
        -- now apply in_range_bounds.
  - intros (digits & Hne & Hall & [[-> ->] | (Hs & -> & ->)] & Hr);
      apply in_range_bounds in Hr.
    + destruct digits as [|c digits]; [now destruct Hne|].
      assert (Hc : Ascii.eqb c "-" = false).
      { apply digit_is_not_minus. simpl in Hall.
        now apply andb_prop in Hall. }
      rewrite Hc. simpl andb. cbv iota.
      apply (from_chars_digits_whole it false (String c digits)). auto.
    + rewrite Ascii.eqb_refl, Hs. simpl andb. cbv iota.
      apply (from_chars_digits_whole it true digits). auto.
Qed.

(** C10, as amended: for every integer type, conversion of a value text
    succeeds with [x] exactly when the whole text is a numeral of the type
    with value [x]; it succeeds exactly when the numeric parse reports no
    error and consumes the entire text; so a text with a character that is
    not a digit (other than a leading minus sign for a signed type) fails to
    convert, and never gives the value of a prefix. *)
Theorem charconv_parse_whole_text (it : IntType) (text : string) :
  (forall x, charconv_parse it text = Some (MkInteger x) <-> numeral it text x) /\
  ((exists x, charconv_parse it text = Some x) <->
   ec (fst (from_chars it text)) = errc_none /\ consumes_entire_text it text) /\
  (forall prefix c rest,
     text = prefix ++ String c rest ->
     is_digit c = false ->
     prefix <> "" \/ c <> "-"%char \/ is_signed it = false ->
     charconv_parse it text = None).
Proof.
  split; [|split].
  - intros x. apply charconv_parse_numeral.
  - unfold consumes_entire_text. split.
    + intros [[x] H]. apply charconv_parse_some in H. rewrite H. auto.
    + intros [Hec Hptr].
      destruct (from_chars_none_stores it text Hec) as [x Hx].
      exists (MkInteger x). apply charconv_parse_some.
      destruct (from_chars it text) as [[p e] v]. simpl in *. congruence.
  - intros prefix c rest Htext Hc Hlead.
    destruct (charconv_parse it text) as [[x]|] eqn:E; [exfalso|reflexivity].
    apply charconv_parse_numeral in E.
    destruct E as (digits & _ & Hall & [[Hd _] | (Hs & Hd & _)] & _).
    + rewrite <- Hd, Htext, all_digits_app in Hall. simpl in Hall.
      rewrite Hc in Hall. simpl in Hall. rewrite andb_false_r in Hall.
      discriminate.
    + rewrite Htext in Hd. destruct prefix as [|p0 prefix]; simpl in Hd.
      * injection Hd as -> _.
        destruct Hlead as [H | [H | H]]; congruence.
      * injection Hd as _ Hd.
        rewrite <- Hd, all_digits_app in Hall. simpl in Hall.
        rewrite Hc in Hall. simpl in Hall. rewrite andb_false_r in Hall.
        discriminate.
Qed.

Example charconv_parse_examples :
  charconv_parse int32_t "12" = Some (MkInteger 12%Z) /\
  charconv_parse int32_t "-12" = Some (MkInteger (-12)%Z) /\
  charconv_parse int32_t "12abc" = None /\
  charconv_parse int32_t "12 " = None /\
  charconv_parse int32_t " 12" = None /\
  charconv_parse int32_t "+12" = None /\
  charconv_parse uint32_t "-12" = None /\
  charconv_parse int32_t "" = None.
Proof. repeat split; reflexivity. Qed.

(** C10 as stated fails: a numeral too large for the type is consumed to
    the end of the text and does not convert. *)
Lemma consumed_text_claim_counterexample :
  ~ (forall (it : IntType) (text : string),
       (exists x, charconv_parse it text = Some x) <->
       consumes_entire_text it text).
Proof.
  intros H.
  destruct (proj2 (H int16_t "40000") eq_refl) as [x Hx].
  discriminate Hx.
Qed.

(** ** The scenarios of the documentation *)

Example window_cli_all_options :
  Compound_parse window_cli ["-w=1920"; "-h=1080"; "--fullscreen"; "-n=foobar"]
  = Some (@ParseResult width_struct (MkInteger 1920%Z),
          (@ParseResult height_struct (MkInteger 1080%Z),
           (@ParseResult fullscreen_struct true,
            (@ParseResult username_struct "foobar", tt)))).
Proof. reflexivity. Qed.

Example window_cli_missing_height :
  Compound_parse window_cli ["-w=1920"] = None.
Proof. reflexivity. Qed.

Example window_cli_defaults :
  Compound_parse window_cli ["--height=600"; "--width=800"]
  = Some (@ParseResult width_struct (MkInteger 800%Z),
          (@ParseResult height_struct (MkInteger 600%Z),
           (@ParseResult fullscreen_struct false,
            (@ParseResult username_struct "anonymous", tt)))).
Proof. reflexivity. Qed.

Example commands_cli_open_window :
  CommandSelector_parse commands_cli ["open-window"; "-w=800"; "-h=600"]
  = Some (alternative_here
            (@ParseResult width_struct (MkInteger 800%Z),
             (@ParseResult height_struct (MkInteger 600%Z), tt))).
Proof. reflexivity. Qed.

Example commands_cli_no_command :
  CommandSelector_parse commands_cli [] = None /\
  CommandSelector_parse commands_cli ["-w=800"; "open-window"] = None.
Proof. split; reflexivity. Qed.

Example window_cli_help :
  Compound_to_string (or_options fullscreen_option username_option)
  = Some ("--fullscreen <bool>                     Start the application in fullscreen mode."
          ++ newline
          ++ "                                        By default: false"
          ++ newline
          ++ "                                        Implicitly: true"
          ++ newline
          ++ "-n, --name <std::string>                Username used to log in to the server."
          ++ newline
          ++ "                                        By default: anonymous"
          ++ newline).
Proof. reflexivity. Qed.

(* ================================================================== *)
(** * Further properties of the code *)

(** ** parse_traits.hh *)

(** X1: [parse_traits<bool>::parse] accepts exactly the two texts that
    [to_string] produces, and gives back the value that was printed. *)
Theorem bool_parse_to_string (text : string) (x : bool) :
  @traits_parse bool parse_traits_bool text = Some x <->
  text = @traits_to_string bool parse_traits_bool x.
Proof.
  simpl.
  destruct (String.eqb_spec text "true") as [->|Ht].
  - destruct x; split; intros H; try reflexivity; discriminate.
  - destruct (String.eqb_spec text "false") as [->|Hf].
    + destruct x; split; intros H; try reflexivity; discriminate.
    + destruct x; split; intros H; try discriminate; congruence.
Qed.

Lemma scan_string_of_uint_acc (d : Decimal.uint) (acc : positive) :
  scan_digits (NilEmpty.string_of_uint d) (Z.pos acc)
  = (String.length (NilEmpty.string_of_uint d),
     Z.pos (Pos.of_uint_acc d acc)).
Proof.
  revert acc. induction d as [|d IH|d IH|d IH|d IH|d IH|d IH|d IH|d IH|d IH|d IH];
    intros acc; [reflexivity|..];
    cbn [NilEmpty.string_of_uint scan_digits String.length Pos.of_uint_acc];
    cbv [is_digit]; cbn [nat_of_ascii]; simpl Nat.leb; cbn [andb];
    match goal with
    | |- context [digit_value ?c] =>
        let v := eval vm_compute in (digit_value c) in
        change (digit_value c) with v
    end;
    match goal with
    | |- context [scan_digits _ ?a] =>
        match goal with
        | |- context [Pos.of_uint_acc _ ?p] =>
            replace a with (Z.pos p) by lia
        end
    end;
    rewrite IH; reflexivity.
Qed.

Lemma scan_string_of_uint (d : Decimal.uint) :
  scan_digits (NilEmpty.string_of_uint d) 0%Z
  = (String.length (NilEmpty.string_of_uint d), Z.of_N (Pos.of_uint d)).
Proof.
  induction d as [|d IH|d IH|d IH|d IH|d IH|d IH|d IH|d IH|d IH|d IH];
    [reflexivity|..];
    cbn [NilEmpty.string_of_uint scan_digits String.length Pos.of_uint];
    cbv [is_digit]; cbn [nat_of_ascii]; simpl Nat.leb; cbn [andb];
    [ change (0 * 10 + digit_value "0")%Z with 0%Z; rewrite IH; reflexivity
    | match goal with
      | |- context [scan_digits _ ?a] =>
          match goal with
          | |- context [Pos.of_uint_acc _ ?p] =>
              change a with (Z.pos p)
          end
      end;
      rewrite scan_string_of_uint_acc; reflexivity .. ].
Qed.

Lemma string_of_uint_first_digit (d : Decimal.uint) :
  d <> Decimal.Nil ->
  exists c rest,
    NilEmpty.string_of_uint d = String c rest /\ Ascii.eqb c "-" = false.
Proof.
  destruct d; [intros H; now destruct H|..]; intros _; simpl; eauto.
Qed.

Lemma from_chars_digits_printed (it : IntType) (negative : bool)
  (d : Decimal.uint) :
  let x := if negative then (- Z.of_N (Pos.of_uint d))%Z
           else Z.of_N (Pos.of_uint d) in
  d <> Decimal.Nil ->
  in_range it x = true ->
  from_chars_digits it negative (NilEmpty.string_of_uint d)
  = (MkFromCharsResult
       ((if negative then 1 else 0)
        + String.length (NilEmpty.string_of_uint d)) errc_none,
     Some x).
Proof.
  intros x Hd Hr. unfold from_chars_digits.
  rewrite scan_string_of_uint.
  destruct (string_of_uint_first_digit d Hd) as (c & rest & Hs & _).
  rewrite Hs. cbn [String.length]. cbv zeta. fold x. rewrite Hr. reflexivity.
Qed.

Lemma charconv_parse_printed (it : IntType) (x : Z) :
  in_range it x = true ->
  charconv_parse it (charconv_to_string it (MkInteger x)) = Some (MkInteger x).
Proof.
  intros Hr. apply charconv_parse_some.
  unfold charconv_to_string. cbn [integer_value].
  destruct x as [|p|p]; cbn [Z.to_int NilZero.string_of_int].
  - change (NilZero.string_of_uint Decimal.zero) with "0".
    assert (E : from_chars it "0"
                = if in_range it 0%Z
                  then (MkFromCharsResult 1 errc_none, Some 0%Z)
                  else (MkFromCharsResult 1 errc_result_out_of_range, None))
      by reflexivity.
    rewrite E, Hr. reflexivity.
  - pose proof (Unsigned.to_uint_nonnil p) as Hd.
    assert (Hs : NilZero.string_of_uint (Pos.to_uint p)
                 = NilEmpty.string_of_uint (Pos.to_uint p))
      by (destruct (Pos.to_uint p); [now destruct Hd | reflexivity ..]).
    rewrite Hs.
    destruct (string_of_uint_first_digit _ Hd) as (c & rest & Hc & Hminus).
    unfold from_chars. rewrite Hc, Hminus. cbn [andb]. rewrite <- Hc.
    rewrite (from_chars_digits_printed it false (Pos.to_uint p) Hd);
      rewrite Unsigned.of_to; [reflexivity | exact Hr].
  - pose proof (Unsigned.to_uint_nonnil p) as Hd.
    assert (Hs : NilZero.string_of_uint (Pos.to_uint p)
                 = NilEmpty.string_of_uint (Pos.to_uint p))
      by (destruct (Pos.to_uint p); [now destruct Hd | reflexivity ..]).
    rewrite Hs.
    assert (Hsigned : is_signed it = true).
    { unfold in_range, int_min in Hr. destruct (is_signed it); [reflexivity|].
      apply andb_prop in Hr. destruct Hr as [Hr _].
      apply Z.leb_le in Hr. lia. }
    unfold from_chars. rewrite Ascii.eqb_refl, Hsigned. cbn [andb].
    rewrite (from_chars_digits_printed it true (Pos.to_uint p) Hd);
      rewrite Unsigned.of_to; [reflexivity | exact Hr].
Qed.

(** X2: for every integer type and every value [x] the type can hold, the
    text that [to_string] prints for [x] is parsed back to [x]. *)
Theorem charconv_round_trip (it : IntType) (x : Z) :
  in_range it x = true ->
  charconv_parse it (charconv_to_string it (MkInteger x)) = Some (MkInteger x).
Proof. apply charconv_parse_printed. Qed.

Lemma charconv_round_trip_witness :
  charconv_parse int16_t (charconv_to_string int16_t (MkInteger (-32768)%Z))
  = Some (MkInteger (-32768)%Z).
Proof. exact (charconv_round_trip int16_t (-32768)%Z eq_refl). Defined.

(** X3: a text that converts gives a value whose printed form converts to
    the same value, whatever leading zeros or minus zero the text had. *)
Theorem charconv_parse_print_parse (it : IntType) (text : string)
  (v : integer it) :
  charconv_parse it text = Some v ->
  charconv_parse it (charconv_to_string it v) = Some v.
Proof.
  destruct v as [x]. intros H.
  apply charconv_parse_printed.
  apply charconv_parse_numeral in H.
  destruct H as (digits & _ & _ & _ & Hr). now apply in_range_bounds.
Qed.

Lemma charconv_parse_print_parse_witness :
  charconv_parse int32_t (charconv_to_string int32_t (MkInteger 7%Z))
  = Some (MkInteger 7%Z).
Proof.
  exact (charconv_parse_print_parse int32_t "007" (MkInteger 7%Z) eq_refl).
Defined.

Lemma pop_back_app_char (s : string) (c : ascii) :
  pop_back (s ++ String c "") = s.
Proof.
  induction s as [|d s IH]; [reflexivity|].
  cbn [append pop_back]. rewrite IH.
  destruct s; reflexivity.
Qed.

Lemma fold_concat_trailing (f : string -> string) (x : string)
  (l : list string) (acc : string) :
  fold_left (fun result t => (result ++ t) ++ " ") (x :: l) acc
  = (acc ++ String.concat " " (x :: l)) ++ " ".
Proof.
  revert x acc. induction l as [|y l IH]; intros x acc.
  - reflexivity.
  - change (fold_left (fun result t => (result ++ t) ++ " ")
              (y :: l) ((acc ++ x) ++ " ")
            = (acc ++ String.concat " " (x :: y :: l)) ++ " ").
    rewrite IH. cbn [String.concat].
    now rewrite !app_assoc_string.
Qed.

Lemma fold_left_map_strings {T : Type} (f : T -> string) (l : list T)
  (acc : string) :
  fold_left (fun result t => (result ++ f t) ++ " ") l acc
  = fold_left (fun result t => (result ++ t) ++ " ") (map f l) acc.
Proof.
  revert acc. induction l as [|x l IH]; intros acc; simpl; auto.
Qed.

Lemma constant_range_to_string_concat_of (T : Type) (traits : parse_traits T)
  (r : constant_range T) :
  constant_range_to_string r
  = String.concat " " (map traits_to_string (array r)).
Proof.
  unfold constant_range_to_string. rewrite fold_left_map_strings.
  destruct (map traits_to_string (array r)) as [|x l].
  - reflexivity.
  - rewrite (fold_concat_trailing (fun s => s)). cbn [append].
    assert (He : empty (String.concat " " (x :: l) ++ " ") = false)
      by (destruct (String.concat " " (x :: l)); reflexivity).
    rewrite He. cbn [negb]. apply pop_back_app_char.
Qed.

Lemma length_concat_space (x : string) (l : list string) :
  String.length (String.concat " " (x :: l))
  = list_sum (map String.length (x :: l)) + List.length l.
Proof.
  revert x. induction l as [|y l IH]; intros x.
  - simpl. lia.
  - change (String.concat " " (x :: y :: l))
      with (x ++ " " ++ String.concat " " (y :: l)).
    rewrite !length_app, IH. simpl. lia.
Qed.

(** X4: the text of a [constant_range], which has at least one element, is
    the texts of its elements in order with one space put between every two
    neighbours, the space after the last element being removed again; a
    single element gives its own text; and the length of the text is the
    sum of the lengths of the element texts plus the number of elements
    less one. *)
Theorem constant_range_to_string_joined (T : Type) (traits : parse_traits T)
  (r : constant_range T) :
  array r <> [] ->
  constant_range_to_string r
  = String.concat " " (map traits_to_string (array r)) /\
  (forall t, array r = [t] -> constant_range_to_string r = traits_to_string t) /\
  String.length (constant_range_to_string r)
  = list_sum (map (fun t => String.length (traits_to_string t)) (array r))
    + (List.length (array r) - 1).
Proof.
  intros Hne. rewrite constant_range_to_string_concat_of.
  split; [reflexivity | split].
  - intros t ->. reflexivity.
  - destruct (array r) as [|t l]; [now destruct Hne|].
    cbn [map]. rewrite length_concat_space.
    cbn [map list_sum List.length]. rewrite !length_map, map_map.
    lia.
Qed.

Lemma constant_range_to_string_joined_witness :
  constant_range_to_string (MkConstantRange [true; false; true])
  = "true false true" /\
  String.length (constant_range_to_string (MkConstantRange [true; false; true]))
  = 15.
Proof.
  assert (Hne : array (MkConstantRange [true; false; true]) <> [])
    by discriminate.
  destruct (constant_range_to_string_joined bool _
              (MkConstantRange [true; false; true]) Hne) as (H1 & _ & H2).
  split; [exact H1 | exact H2].
Defined.

(** ** clp.hh: the layers of a leaf *)

Lemma Pattern_patterns (T : OptionStruct) (b : Base T) :
  Pattern b = match patterns b with [] => false | _ :: _ => true end.
Proof.
  induction b; simpl; auto. now destruct (patterns b).
Qed.

Lemma concat_snoc (sep x : string) (l : list string) (y : string) :
  String.concat sep ((x :: l) ++ [y]) = (String.concat sep (x :: l) ++ sep) ++ y.
Proof.
  revert x. induction l as [|z l IH]; intros x.
  - simpl. now rewrite app_assoc_string.
  - change (x ++ sep ++ String.concat sep ((z :: l) ++ [y])
            = ((x ++ sep ++ String.concat sep (z :: l)) ++ sep) ++ y).
    rewrite IH. now rewrite !app_assoc_string.
Qed.

(** X5: the pattern column of the help text lists the patterns of the
    leaf in the order they were attached, separated by a comma and a
    space. *)
Theorem patterns_to_string_concat (T : OptionStruct) (b : Base T) :
  patterns_to_string b = String.concat ", " (patterns b).
Proof.
  induction b; simpl; auto.
  rewrite Pattern_patterns, IHb.
  destruct (patterns b) as [|x l].
  - reflexivity.
  - now rewrite concat_snoc.
Qed.

Lemma forallb_snoc {A : Type} (f : A -> bool) (l : list A) (x : A) :
  forallb f (l ++ [x]) = forallb f l && f x.
Proof. rewrite forallb_app. simpl. now rewrite andb_true_r. Qed.

Lemma HasValidationCheck_checks (T : OptionStruct) (b : Base T) :
  HasValidationCheck b = match checks b with [] => false | _ :: _ => true end.
Proof.
  induction b; simpl; auto. now destruct (checks b).
Qed.

Lemma validate_forallb (T : OptionStruct) (b : Base T)
  (t : parse_result_type T) :
  validate b t = forallb (fun predicate => predicate (_get t)) (checks b).
Proof.
  induction b; simpl; auto.
  rewrite forallb_snoc, IHb, HasValidationCheck_checks.
  destruct (checks b) as [|q l]; cbn [forallb andb]; [reflexivity|].
  destruct (q (_get t) && forallb (fun predicate => predicate (_get t)) l);
    reflexivity.
Qed.

(** X6: a leaf with a validation check validates a value exactly when every
    check attached to it, under whatever other layers, accepts the value. *)
Theorem validate_all_checks (T : OptionStruct) (b : Base T)
  (t : parse_result_type T) :
  HasValidationCheck b = true ->
  (validate b t = true <->
   forall predicate, In predicate (checks b) -> predicate (_get t) = true).
Proof.
  intros _. rewrite validate_forallb, forallb_forall. reflexivity.
Qed.

Lemma validate_all_checks_witness :
  let b : Base width_struct :=
    check (check (WithPattern (clp_Opt (integer int32_t) "int" "width") "-w")
             (fun x : integer int32_t => (0 <? integer_value x)%Z)
             "Width must be positive.")
      (fun x : integer int32_t => (integer_value x <=? 3840)%Z)
      "Width must be at most 3840." in
  validate b (@ParseResult width_struct (MkInteger 1920%Z)) = true /\
  validate b (@ParseResult width_struct (MkInteger 0%Z)) = false /\
  validate b (@ParseResult width_struct (MkInteger 4000%Z)) = false.
Proof.
  intros b.
  assert (H : forall x, validate b (@ParseResult width_struct (MkInteger x)) = true <->
                        (0 < x <= 3840)%Z).
  { intros x.
    rewrite (validate_all_checks _ b (@ParseResult width_struct (MkInteger x)) eq_refl).
    simpl. split.
    - intros H.
      pose proof (H _ (or_introl eq_refl)) as H1.
      pose proof (H _ (or_intror (or_introl eq_refl))) as H2.
      simpl in H1, H2. apply Z.ltb_lt in H1. apply Z.leb_le in H2. lia.
    - intros Hx predicate [<- | [<- | []]]; simpl;
        [apply Z.ltb_lt | apply Z.leb_le]; lia. }
  split; [apply H; lia | split].
  - destruct (validate b (@ParseResult width_struct (MkInteger 0%Z))) eqn:E; [|reflexivity].
    apply H in E. lia.
  - destruct (validate b (@ParseResult width_struct (MkInteger 4000%Z))) eqn:E; [|reflexivity].
    apply H in E. lia.
Defined.

(** ** clp.inl: [OptionInterface::parse] on the whole list *)

Lemma absent_or_first_matching (T : OptionStruct) (b : Base T)
  (args : list string) :
  absent b args \/ exists token text, first_matching b args token text.
Proof.
  induction args as [|a args IH].
  - left. constructor.
  - destruct (match_ b a) as [m|] eqn:Hm.
    + right. exists a, m, [], args. repeat split; [constructor | assumption].
    + destruct IH as [Habs | (token & text & before & after & -> & Habs & Ht)].
      * left. constructor; assumption.
      * right. exists token, text, (a :: before), after.
        split; [reflexivity | split; [constructor; assumption | assumption]].
Qed.

Lemma convert_checked_some (T : OptionStruct) (b : Base T) (text : string)
  (r : parse_result_type T) :
  convert_checked b text = Some r <->
  parse_impl b text = Some r /\ validate b r = true.
Proof.
  unfold convert_checked.
  pose proof (validate_forallb T b r) as Hv.
  rewrite HasValidationCheck_checks.
  destruct (checks b) as [|q l] eqn:E.
  - simpl in Hv. rewrite Hv. tauto.
  - destruct (parse_impl b text) as [r'|]; [|split; [discriminate | tauto]].
    destruct (validate b r') eqn:Hr'; simpl.
    + split; [intros [= <-]; auto | tauto].
    + split; [discriminate | intros [[= <-] H]; congruence].
Qed.

(** X7: a value returned by the parse of a leaf has one of three origins:
    the implicit value, when the first matching token gives an empty
    matched text; the default value, when no token matches; or the
    conversion of the matched text of the first matching token, and then
    every check attached to the leaf accepts it.  Only the implicit and the
    default value are returned without being checked. *)
Theorem parse_result_origin (T : OptionStruct) (b : Base T)
  (args : list string) (r : parse_result_type T) :
  OptionInterface_parse b args = Some r ->
  (exists i token,
     implicit_value_of b = Some i /\ first_matching b args token "" /\
     r = make_parse_result i) \/
  (exists d,
     default_value_of b = Some d /\ absent b args /\
     r = make_parse_result d) \/
  (exists token text,
     first_matching b args token text /\ parse_impl b text = Some r /\
     forall predicate, In predicate (checks b) -> predicate (_get r) = true).
Proof.
  intros H.
  destruct (absent_or_first_matching T b args)
    as [Habs | (token & text & Hfirst)].
  - right. left. rewrite parse_absent in H by assumption.
    destruct (default_value_of b) as [d|]; [|discriminate].
    injection H as <-. eauto.
  - rewrite (parse_first_matching T b args token text Hfirst) in H.
    assert (Hconv : convert_checked b text = Some r ->
              exists token text,
                first_matching b args token text /\
                parse_impl b text = Some r /\
                forall predicate,
                  In predicate (checks b) -> predicate (_get r) = true).
    { intros Hc. apply convert_checked_some in Hc. destruct Hc as [Hp Hv].
      exists token, text. split; [assumption | split; [assumption|]].
      rewrite validate_forallb, forallb_forall in Hv. exact Hv. }
    unfold parse_matched in H.
    destruct (implicit_value_of b) as [i|] eqn:Hi; [|right; right; auto].
    destruct text as [|c text]; simpl in H; [|right; right; auto].
    left. injection H as <-. exists i, token. auto.
Qed.

Lemma parse_result_origin_witness :
  let positive := fun x : integer int32_t => (0 <? integer_value x)%Z in
  let b : Base width_struct :=
    check (WithPattern (clp_Opt (integer int32_t) "int" "width") "-w")
      positive "Width must be positive." in
  option_map _get (OptionInterface_parse b ["-n=dodo"; "-w=7"])
  = Some (MkInteger 7%Z) /\
  positive (MkInteger 7%Z) = true.
Proof.
  intros positive b. split; [reflexivity|].
  destruct (parse_result_origin _ b ["-n=dodo"; "-w=7"]
              (@ParseResult width_struct (MkInteger 7%Z)) eq_refl)
    as [(i & token & Hi & _) | [(d & Hd & _) | (token & text & _ & _ & Hc)]].
  - discriminate Hi.
  - discriminate Hd.
  - exact (Hc positive (or_introl eq_refl)).
Defined.

(** X8: a leaf without a default value is mandatory: it fails when no token
    of the list matches, in particular on the empty list, and when it
    succeeds some token of the list matched. *)
Theorem mandatory_option (T : OptionStruct) (b : Base T) (args : list string) :
  default_value_of b = None ->
  (absent b args -> OptionInterface_parse b args = None) /\
  OptionInterface_parse b [] = None /\
  (forall r, OptionInterface_parse b args = Some r ->
             exists token text, first_matching b args token text).
Proof.
  intros Hd. split; [|split].
  - intros Habs. rewrite parse_absent by assumption. now rewrite Hd.
  - simpl. now rewrite Hd.
  - intros r H.
    destruct (absent_or_first_matching T b args) as [Habs | Hfirst]; auto.
    rewrite parse_absent, Hd in H by assumption. discriminate.
Qed.

Lemma mandatory_option_witness :
  OptionInterface_parse height_option ["-w=1920"; "--fullscreen"] = None /\
  OptionInterface_parse height_option [] = None.
Proof.
  destruct (mandatory_option _ height_option ["-w=1920"; "--fullscreen"]
              eq_refl) as (Habs & Hnil & _).
  split; [apply Habs; repeat constructor | exact Hnil].
Defined.

Lemma parse_first_of_filter (T : OptionStruct) (b : Base T)
  (args : list string) :
  OptionInterface_parse b args
  = OptionInterface_parse b (firstn 1 (filter (matches b) args)).
Proof.
  induction args as [|a args IH]; [reflexivity|].
  cbn [filter]. unfold matches at 1.
  destruct (match_ b a) as [m|] eqn:Hm.
  - simpl. now rewrite Hm.
  - simpl. now rewrite Hm.
Qed.

(** X9: the parse of a leaf looks at nothing but the first token that
    matches it: tokens that match none of its patterns, and every matching
    token after the first, do not change the result. *)
Theorem parse_first_matching_token_only (T : OptionStruct) (b : Base T)
  (args : list string) :
  OptionInterface_parse b args
  = OptionInterface_parse b (firstn 1 (filter (matches b) args)).
Proof. apply parse_first_of_filter. Qed.

Lemma filter_permutation {A : Type} (f : A -> bool) (l l' : list A) :
  Permutation l l' -> Permutation (filter f l) (filter f l').
Proof.
  induction 1 as [|x l l' _ IH|x y l|l l' l'' _ IH1 _ IH2]; simpl.
  - constructor.
  - destruct (f x); [constructor|]; assumption.
  - destruct (f x), (f y); try apply Permutation_refl. constructor.
  - eapply Permutation_trans; eassumption.
Qed.

Lemma parse_permutation (T : OptionStruct) (b : Base T)
  (args args' : list string) :
  Permutation args args' ->
  List.length (filter (matches b) args) <= 1 ->
  OptionInterface_parse b args = OptionInterface_parse b args'.
Proof.
  intros Hperm Hlen.
  rewrite (parse_first_of_filter T b args), (parse_first_of_filter T b args').
  pose proof (filter_permutation (matches b) _ _ Hperm) as Hf.
  destruct (filter (matches b) args) as [|x [|y l]]; simpl in Hlen.
  - apply Permutation_nil in Hf. now rewrite Hf.
  - apply Permutation_length_1_inv in Hf. now rewrite Hf.
  - lia.
Qed.

(** X10: a leaf is found by name, not by position: when at most one token
    of the list matches the leaf, every reordering of the list parses to
    the same result. *)
Theorem OptionInterface_parse_permutation (T : OptionStruct) (b : Base T)
  (args args' : list string) :
  Permutation args args' ->
  List.length (filter (matches b) args) <= 1 ->
  OptionInterface_parse b args = OptionInterface_parse b args'.
Proof. apply parse_permutation. Qed.

Lemma OptionInterface_parse_permutation_witness :
  OptionInterface_parse width_option ["-w=1920"; "-h=1080"; "--fullscreen"]
  = OptionInterface_parse width_option ["--fullscreen"; "-h=1080"; "-w=1920"].
Proof.
  apply OptionInterface_parse_permutation.
  - apply Permutation_rev with (l := ["-w=1920"; "-h=1080"; "--fullscreen"]).
  - simpl. lia.
Defined.

(** ** clp.hh: the order of the layers *)

Lemma parse_ext (T : OptionStruct) (b b' : Base T) :
  (forall text, match_ b text = match_ b' text) ->
  implicit_value_of b = implicit_value_of b' ->
  default_value_of b = default_value_of b' ->
  (forall text, parse_impl b text = parse_impl b' text) ->
  HasValidationCheck b = HasValidationCheck b' ->
  (forall t, validate b t = validate b' t) ->
  forall args, OptionInterface_parse b args = OptionInterface_parse b' args.
Proof.
  intros Hm Hi Hd Hp Hc Hv args.
  induction args as [|a args IH]; simpl.
  - now rewrite Hd.
  - rewrite <- Hm, IH. destruct (match_ b a) as [m|]; [|reflexivity].
    unfold parse_matched, convert_checked. rewrite <- Hi, <- Hp, <- Hc.
    destruct (implicit_value_of b); destruct (empty m);
      destruct (HasValidationCheck b); destruct (parse_impl b m);
      rewrite <- ?Hv; reflexivity.
Qed.

Lemma to_string_ext (T : OptionStruct) (b b' : Base T) :
  description_of b = description_of b' ->
  patterns_to_string b = patterns_to_string b' ->
  hint_text b = hint_text b' ->
  default_value_of b = default_value_of b' ->
  implicit_value_of b = implicit_value_of b' ->
  OptionInterface_to_string b = OptionInterface_to_string b'.
Proof.
  intros Hs Hp Hh Hd Hi. unfold OptionInterface_to_string.
  now rewrite Hs, Hp, Hh, Hd, Hi.
Qed.

(** X11: two capabilities of different kinds can be attached to a leaf in
    either order: both orders are accepted or both are rejected, and when
    accepted the two leaves parse every argument list to the same result
    and have the same help text. *)
Theorem attach_order_irrelevant (T : OptionStruct) (b : Base T)
  (d1 d2 : decorator T) :
  capability_of d1 <> capability_of d2 ->
  match attach_both d1 d2 b, attach_both d2 d1 b with
  | Some b12, Some b21 =>
      (forall args,
         OptionInterface_parse b12 args = OptionInterface_parse b21 args) /\
      OptionInterface_to_string b12 = OptionInterface_to_string b21
  | None, None => True
  | _, _ => False
  end.
Proof.
  intros Hne.
  destruct (description_of b) eqn:E1; destruct (default_value_of b) eqn:E2;
    destruct (implicit_value_of b) eqn:E3;
    destruct d1, d2; try (now destruct Hne); clear Hne;
    unfold attach_both, attach, describe, default_to, implicitly,
      HasDescription, HasDefaultValue, HasImplicitValue,
      with_pattern, check, custom_parser, hint; simpl;
    rewrite ?E1, ?E2, ?E3; simpl; rewrite ?E1, ?E2, ?E3; simpl; trivial;
    (split; [apply parse_ext | apply to_string_ext]); reflexivity.
Qed.

Lemma attach_order_irrelevant_witness :
  let b : Base width_struct :=
    WithPattern (clp_Opt (integer int32_t) "int" "width") "-w" in
  let d1 : decorator width_struct :=
    @add_default width_struct
      (@stored (integer int32_t) _ (MkInteger 1920%Z)) in
  let d2 : decorator width_struct :=
    @add_check width_struct
      (fun x : integer int32_t => (0 <? integer_value x)%Z)
      "Width must be positive." in
  exists b12 b21,
    attach_both d1 d2 b = Some b12 /\ attach_both d2 d1 b = Some b21 /\
    OptionInterface_parse b12 ["-w=0"] = OptionInterface_parse b21 ["-w=0"].
Proof.
  intros b d1 d2.
  assert (Hne : capability_of d1 <> capability_of d2) by discriminate.
  pose proof (attach_order_irrelevant _ b d1 d2 Hne) as H.
  subst b d1 d2. cbv [attach_both attach default_to check] in *.
  simpl in H.
  eexists _, _. split; [reflexivity | split; [reflexivity|]].
  exact (proj1 H ["-w=0"]).
Defined.

(** ** clp.inl: [clp_Flag] *)

Lemma with_patterns_lookups (T : OptionStruct) (ps : list string) (b : Base T) :
  implicit_value_of (with_patterns b ps) = implicit_value_of b /\
  default_value_of (with_patterns b ps) = default_value_of b /\
  HasValidationCheck (with_patterns b ps) = HasValidationCheck b /\
  (forall text, parse_impl (with_patterns b ps) text = parse_impl b text) /\
  patterns (with_patterns b ps) = (patterns b ++ ps)%list.
Proof.
  unfold with_patterns. revert b.
  induction ps as [|p ps IH]; intros b; simpl.
  - now rewrite app_nil_r.
  - destruct (IH (with_pattern b p)) as (Hi & Hd & Hc & Hp & Hps).
    rewrite Hi, Hd, Hc, Hps. simpl. rewrite <- app_assoc.
    repeat split; auto.
Qed.

(** X12: a flag with any patterns attached never fails for absence: it is
    [false] when no token matches; named by a pattern alone it is [true];
    and named with [=text] it takes the value of the text, which has to be
    [true] or [false]. *)
Theorem clp_Flag_parse (var : string) (ps : list string) (args : list string) :
  let b := with_patterns (clp_Flag var) ps in
  (absent b args ->
   option_map _get (OptionInterface_parse b args) = Some false) /\
  (forall token text,
     first_matching b args token text ->
     option_map _get (OptionInterface_parse b args)
     = if empty text then Some true
       else @traits_parse bool parse_traits_bool text).
Proof.
  intros b.
  destruct (with_patterns_lookups _ ps (clp_Flag var))
    as (Hi & Hd & Hc & Hp & _).
  fold b in Hi, Hd, Hc, Hp. split.
  - intros Habs. rewrite parse_absent by assumption. now rewrite Hd.
  - intros token text Hfirst.
    rewrite (parse_first_matching _ b args token text Hfirst).
    unfold parse_matched, convert_checked. rewrite Hi, Hc, Hp.
    destruct (empty text); [reflexivity|].
    change (implicit_value_of (clp_Flag var))
      with (Some (@stored bool _ true)).
    change (HasValidationCheck (clp_Flag var)) with false.
    change (parse_impl (clp_Flag var) text)
      with (match @traits_parse bool parse_traits_bool text with
            | Some value =>
                Some (@ParseResult {| field := var; value_type := bool |} value)
            | None => None
            end).
    cbv iota.
    now destruct (@traits_parse bool parse_traits_bool text).
Qed.

(** ** clp.inl: the first line of the help text *)

Lemma length_spaces (n : nat) : String.length (spaces n) = n.
Proof. induction n; simpl; congruence. Qed.

Lemma substring_app_middle (a b c : string) :
  String.substring (String.length a) (String.length b) (a ++ b ++ c) = b.
Proof.
  induction a as [|x a IH]; simpl.
  - revert c. induction b as [|y b IHb]; intros c; simpl.
    + now destruct c.
    + now rewrite IHb.
  - exact IH.
Qed.

(** X13: in the help text of a leaf, the patterns and the hint come first,
    untruncated, and the description starts at column 40, or right after the
    hint when patterns and hint take 40 columns or more. *)
Theorem help_description_column (T : OptionStruct) (b : Base T)
  (description : string) :
  description_of b = Some description ->
  exists text,
    OptionInterface_to_string b = Some text /\
    String.prefix (help_head b) text = true /\
    String.substring (Nat.max column_width (String.length (help_head b)))
      (String.length description) text = description.
Proof.
  intros Hd. eexists. split; [apply help_text_layout; exact Hd|].
  unfold help_first_line. fold (help_head b). unfold pad.
  split.
  - apply prefix_app. eexists. rewrite !app_assoc_string. reflexivity.
  - replace (Nat.max column_width (String.length (help_head b)))
      with (String.length
              (help_head b
               ++ spaces (column_width - String.length (help_head b))))
      by (rewrite length_app, length_spaces; lia).
    rewrite app_assoc_string. apply substring_app_middle.
Qed.

Lemma help_description_column_witness :
  exists text,
    OptionInterface_to_string width_option = Some text /\
    String.prefix "-w, --width <int>" text = true /\
    String.substring 40 30 text = "Width of the window in pixels.".
Proof.
  exact (help_description_column _ width_option
           "Width of the window in pixels." eq_refl).
Defined.

(** ** clp.inl: composition of compounds *)

Lemma Compound_parse_app (As Bs : list OptionStruct) (a : Compound As)
  (b : Compound Bs) (args : list string) :
  Compound_parse (Compound_app a b) args =
  match Compound_parse a args, Compound_parse b args with
  | Some ra, Some rb => Some (Compound_result_app As Bs ra rb)
  | _, _ => None
  end.
Proof.
  induction a as [|A As o os IH]; simpl.
  - change (Compound_parse CompoundNil args) with (Some tt).
    now destruct (Compound_parse b args).
  - rewrite !Compound_parse_cons, IH.
    destruct (OptionInterface_parse o args); [|reflexivity].
    destruct (Compound_parse os args); [|reflexivity].
    now destruct (Compound_parse b args).
Qed.

(** X14: the compound of two compounds parses an argument list exactly
    when both do, and its result is the result of the first followed by
    the result of the second. *)
Theorem or_compounds_parse (As Bs : list OptionStruct) (a : Compound As)
  (b : Compound Bs) (args : list string) :
  Compound_parse (or_compounds a b) args =
  match Compound_parse a args, Compound_parse b args with
  | Some ra, Some rb => Some (Compound_result_app As Bs ra rb)
  | _, _ => None
  end.
Proof. apply Compound_parse_app. Qed.

(** X15: the help text of the compound of two compounds is the help text
    of the first followed by the help text of the second. *)
Theorem or_compounds_to_string (As Bs : list OptionStruct) (a : Compound As)
  (b : Compound Bs) :
  Compound_to_string (or_compounds a b) =
  match Compound_to_string a, Compound_to_string b with
  | Some sa, Some sb => Some (sa ++ sb)
  | _, _ => None
  end.
Proof.
  unfold or_compounds. induction a as [|A As o os IH]; simpl.
  - now destruct (Compound_to_string b).
  - rewrite IH.
    destruct (OptionInterface_to_string o); [|reflexivity].
    destruct (Compound_to_string os); [|reflexivity].
    destruct (Compound_to_string b); [|reflexivity].
    now rewrite app_assoc_string.
Qed.

Lemma contains_field (Ts : list OptionStruct) (c : Compound Ts)
  (T : OptionStruct) (o : Base T) :
  contains Ts c T o -> In (field T) (map field Ts).
Proof.
  induction 1; simpl; auto.
Qed.

(** X16: in a compound whose options have pairwise different member names,
    a successful parse puts under the name of every option the value that
    this option parses from the argument list. *)
Theorem Compound_field_of_member (Ts : list OptionStruct) (c : Compound Ts)
  (T : OptionStruct) (o : Base T) (args : list string)
  (r : Compound_result Ts) :
  NoDup (map field Ts) ->
  contains Ts c T o ->
  Compound_parse c args = Some r ->
  exists v,
    OptionInterface_parse o args = Some v /\
    Compound_field (field T) Ts r = Some (member v).
Proof.
  intros Hnd Hin. revert r Hnd.
  induction Hin as [T Ts o os | T0 Ts o0 os T o Hin IH]; intros r Hnd;
    rewrite Compound_parse_cons.
  - destruct (OptionInterface_parse o args) as [v|]; [|discriminate].
    destruct (Compound_parse os args) as [r'|]; [|discriminate].
    intros [= <-]. exists v. split; [reflexivity|].
    simpl. now rewrite String.eqb_refl.
  - destruct (OptionInterface_parse o0 args) as [v0|]; [|discriminate].
    destruct (Compound_parse os args) as [r'|] eqn:Hos; [|discriminate].
    intros [= <-]. simpl in Hnd. inversion Hnd as [|x l Hnotin Hnd']. subst.
    destruct (IH r' Hnd' eq_refl) as (v & Hv & Hf).
    exists v. split; [assumption|]. simpl.
    destruct (String.eqb_spec (field T0) (field T)) as [Heq|_]; [|exact Hf].
    exfalso. apply Hnotin. rewrite Heq. eapply contains_field; eassumption.
Qed.

Lemma Compound_field_of_member_witness :
  exists v,
    OptionInterface_parse username_option ["-w=1"; "-h=2"; "-n=dodo"] = Some v /\
    Compound_field "username"
      [width_struct; height_struct; fullscreen_struct; username_struct]
      (@ParseResult width_struct (MkInteger 1%Z),
       (@ParseResult height_struct (MkInteger 2%Z),
        (@ParseResult fullscreen_struct false,
         (@ParseResult username_struct "dodo", tt))))
    = Some (member v).
Proof.
  assert (Hnd : NoDup ["width"; "height"; "fullscreen"; "username"]).
  { repeat constructor; simpl; intuition discriminate. }
  refine (Compound_field_of_member _ window_cli username_struct
            username_option ["-w=1"; "-h=2"; "-n=dodo"] _ Hnd _ eq_refl).
  repeat constructor.
Defined.

Lemma parse_drop_unmatched (T : OptionStruct) (b : Base T)
  (args1 args2 : list string) (token : string) :
  matches b token = false ->
  OptionInterface_parse b (args1 ++ token :: args2)
  = OptionInterface_parse b (args1 ++ args2).
Proof.
  intros H. unfold matches in H.
  induction args1 as [|a args1 IH]; simpl.
  - destruct (match_ b token); [discriminate | reflexivity].
  - now rewrite IH.
Qed.

(** X17: a compound does not reject a token that none of its options
    matches: with or without such a token, anywhere in the list, the result
    is the same. *)
Theorem Compound_ignores_unmatched_token (Ts : list OptionStruct)
  (c : Compound Ts) (args1 args2 : list string) (token : string) :
  Compound_matches c token = false ->
  Compound_parse c (args1 ++ token :: args2) = Compound_parse c (args1 ++ args2).
Proof.
  induction c as [|T Ts o os IH]; simpl.
  - reflexivity.
  - intros H. apply orb_false_elim in H. destruct H as [Ho Hos].
    rewrite !Compound_parse_cons, IH by assumption.
    now rewrite parse_drop_unmatched.
Qed.

Lemma Compound_ignores_unmatched_token_witness :
  Compound_parse window_cli ["-w=1920"; "--fulscreen"; "-h=1080"]
  = Compound_parse window_cli ["-w=1920"; "-h=1080"].
Proof.
  exact (Compound_ignores_unmatched_token _ window_cli ["-w=1920"] ["-h=1080"]
           "--fulscreen" eq_refl).
Defined.

(** X18: the options of a compound are found by name, not by position:
    when every option is matched by at most one token of the list, every
    reordering of the list parses to the same result. *)
Theorem Compound_parse_permutation (Ts : list OptionStruct) (c : Compound Ts)
  (args args' : list string) :
  Permutation args args' ->
  unambiguous c args ->
  Compound_parse c args = Compound_parse c args'.
Proof.
  intros Hperm. induction c as [|T Ts o os IH]; simpl.
  - reflexivity.
  - intros [Ho Hos]. rewrite !Compound_parse_cons, IH by assumption.
    now rewrite (parse_permutation T o args args' Hperm Ho).
Qed.

Lemma Compound_parse_permutation_witness :
  Compound_parse window_cli ["-w=1920"; "-h=1080"; "--fullscreen"; "-n=foobar"]
  = Compound_parse window_cli
      ["-n=foobar"; "--fullscreen"; "-h=1080"; "-w=1920"].
Proof.
  apply Compound_parse_permutation.
  - apply Permutation_rev
      with (l := ["-w=1920"; "-h=1080"; "--fullscreen"; "-n=foobar"]).
  - simpl. repeat split; lia.
Defined.

(** ** clp.inl: selectors as a whole *)

Lemma detail_parse_impl_matched (Cs : list CommandSig)
  (sel : CommandSelector Cs) (token : string) (rest : list string) :
  CommandSelector_match sel token = false ->
  detail_parse_impl sel (token :: rest) = None.
Proof.
  induction sel as [|C Cs c sel IH]; simpl.
  - reflexivity.
  - intros H. apply orb_false_elim in H. destruct H as [Hc Hsel].
    now rewrite Hc, IH.
Qed.

(** X19: a selector succeeds only on a list whose first token is matched
    by one of its commands: on any other list, and on the empty list, it
    fails, whatever the later tokens are. *)
Theorem CommandSelector_parse_needs_match (Cs : list CommandSig)
  (sel : CommandSelector Cs) (args : list string)
  (v : CommandSelector_result Cs) :
  CommandSelector_parse sel args = Some v ->
  exists token rest,
    args = token :: rest /\ CommandSelector_match sel token = true.
Proof.
  destruct args as [|token rest]; simpl; [discriminate|].
  intros H. exists token, rest. split; [reflexivity|].
  destruct (CommandSelector_match sel token) eqn:Hm; [reflexivity|].
  rewrite detail_parse_impl_matched in H by assumption. discriminate.
Qed.

Lemma CommandSelector_parse_needs_match_witness :
  exists token rest,
    ["open-window"; "-w=800"; "-h=600"] = token :: rest /\
    CommandSelector_match commands_cli token = true.
Proof.
  exact (CommandSelector_parse_needs_match _ commands_cli
           ["open-window"; "-w=800"; "-h=600"] _ eq_refl).
Defined.

Lemma detail_parse_impl_app (As Bs : list CommandSig) (a : CommandSelector As)
  (b : CommandSelector Bs) (token : string) (rest : list string) :
  detail_parse_impl (CommandSelector_app a b) (token :: rest) =
  if CommandSelector_match a token
  then option_map (result_left As Bs) (detail_parse_impl a (token :: rest))
  else option_map (result_right As Bs) (detail_parse_impl b (token :: rest)).
Proof.
  induction a as [|A As c a IH]; simpl.
  - now destruct (detail_parse_impl b (token :: rest)).
  - destruct (sig_match A c token); simpl.
    + now destruct (sig_parse A c (token :: rest)).
    + rewrite IH. destruct (CommandSelector_match a token).
      * now destruct (detail_parse_impl a (token :: rest)).
      * now destruct (detail_parse_impl b (token :: rest)).
Qed.

(** X20: in the selector made of two selectors, the commands of the first
    take precedence: when one of them matches the first token the result is
    that of the first selector, in the same alternative; otherwise it is
    that of the second selector, in its alternative after those of the
    first. *)
Theorem or_selectors_parse (As Bs : list CommandSig) (a : CommandSelector As)
  (b : CommandSelector Bs) (token : string) (rest : list string) :
  CommandSelector_parse (or_selectors a b) (token :: rest) =
  if CommandSelector_match a token
  then option_map (result_left As Bs) (CommandSelector_parse a (token :: rest))
  else option_map (result_right As Bs) (CommandSelector_parse b (token :: rest)).
Proof. apply detail_parse_impl_app. Qed.

(** X21: [Help] matches the three help tokens and no other, and in a
    selector that starts with it a list whose first token is one of them
    gives [ShowHelp], whatever follows that token and whatever the other
    commands are. *)
Theorem Help_first (Cs : list CommandSig) (sel : CommandSelector Cs)
  (token : string) (rest : list string) :
  (CommandType_match MkHelp token = true <->
   token = "--help" \/ token = "-h" \/ token = "-?") /\
  (CommandType_match MkHelp token = true ->
   CommandSelector_parse (@or_command_selector HelpCommand Cs MkHelp sel)
     (token :: rest)
   = Some (@alternative_here ShowHelp (map sig_result Cs) MkShowHelp)) /\
  (CommandType_match MkHelp token = false ->
   CommandSelector_parse (@or_command_selector HelpCommand Cs MkHelp sel)
     (token :: rest)
   = option_map (@alternative_there ShowHelp (map sig_result Cs))
       (CommandSelector_parse sel (token :: rest))).
Proof.
  split; [|split].
  - simpl. rewrite !orb_true_iff, !String.eqb_eq. tauto.
  - intros H. unfold or_command_selector. simpl.
    unfold sig_match, HelpCommand. simpl in *. now rewrite H.
  - intros H. unfold or_command_selector. simpl.
    unfold sig_match, HelpCommand. simpl in *. rewrite H.
    now destruct (detail_parse_impl sel (token :: rest)).
Qed.

(** ** [CommandWithSharedOptions::parse] and the first token *)

Lemma Compound_parse_skips_unmatched_head (Ts : list OptionStruct)
  (c : Compound Ts) (token : string) (rest : list string) :
  Compound_matches c token = false ->
  Compound_parse c (token :: rest) = Compound_parse c rest.
Proof.
  induction c as [|T Ts o os IH]; simpl.
  - reflexivity.
  - intros H. apply orb_false_elim in H. destruct H as [Ho Hos].
    rewrite !Compound_parse_cons, IH by assumption.
    pose proof (parse_drop_unmatched T o [] rest token Ho) as E.
    simpl app in E. now rewrite E.
Qed.

Lemma shared_parse_selected (SharedOptions : Type) (HP : Parser SharedOptions)
  (Cs : list CommandSig) (w : CommandWithSharedOptions SharedOptions Cs)
  (token : string) (rest : list string) (C : CommandSig) (c : command_type C)
  (wrap : sig_result C -> CommandSelector_result Cs) :
  selects token Cs (commands w) C c wrap ->
  CommandWithSharedOptions_parse w (token :: rest) =
  match Parser_parse (shared_options w) (token :: rest),
        sig_parse C c (token :: rest) with
  | Some shared, Some result => Some (MkSharedResult shared (wrap result))
  | _, _ => None
  end.
Proof.
  intros Hsel. unfold CommandWithSharedOptions_parse.
  rewrite (selected_command_parses token Cs (commands w) C c wrap rest Hsel).
  destruct (Parser_parse (shared_options w) (token :: rest)); [|reflexivity].
  now destruct (sig_parse C c (token :: rest)).
Qed.



